(** * go-saga: the Saga engine, its steps and its step-state stores

    A shallow embedding of [saga.go], [state_manager.go],
    [in_memory_state_manager.go], of the files that declare [Step] and
    [Option], and of the [mockStateManager] of [saga_test.go], followed by
    the properties of [Execute] and [Compensate].

    Conventions of the embedding.
    - A Go [int] is a [Z].  [currentStep] ranges over [0 .. len(steps)], so no
      machine arithmetic on it can wrap.
    - A Go [error] is an [option goerror]; the [nil] error is [None].
    - The closures of a step act on a caller-owned world [W]: an action is a
      function [W -> W * error].  The object behind the [StateManager]
      interface has its own state, of a type [S]; an action does not reach
      into it.
    - [sync.Mutex] and [sync.RWMutex] only serialise callers; the embedding
      is of one thread of control and leaves them out.
    - Every call that leaves the engine (the two methods of the state
      manager, the two actions of a step) is recorded, with its result, in
      the list of events a run returns.  The list is ghost data: no
      definition ever inspects it. *)

From Stdlib Require Import ZArith String.
From stdpp Require Import gmap strings list sorting.

Open Scope Z_scope.

(** ** Errors: [errors.New], [errors.Errorf] and [errors.Wrapf] of pkg/errors *)

Inductive goerror : Type :=
| fundamental (msg : string)
| withMessage (cause : goerror) (msg : string).

Abbreviation error := (option goerror).

(** The [Error()] method: a wrapped error prints its message, a colon and
    its cause. *)
Fixpoint Error (e : goerror) : string :=
  match e with
  | fundamental msg => msg
  | withMessage cause msg => msg +:+ ": " +:+ Error cause
  end.

(** [errors.Cause]: the innermost error of a chain of wrappers. *)
Fixpoint Cause (e : goerror) : goerror :=
  match e with
  | fundamental _ => e
  | withMessage cause _ => Cause cause
  end.

Definition errors_New (msg : string) : goerror := fundamental msg.

(** [errors.Wrapf(err, format, args...)], at an [err] that is not nil and
    with the format already applied to its arguments. *)
Definition errors_Wrapf (err : goerror) (msg : string) : goerror :=
  withMessage err msg.

(** What the verb [%v] prints for a [[]error]: the messages between square
    brackets, separated by one space. *)
Definition fmt_errors (errs : list goerror) : string :=
  "[" +:+ String.concat " " (map Error errs) +:+ "]".

(** ** The steps: [Step], [step] and [NewStep] *)

Record Step (W : Type) : Type := NewStep {
  name : string;
  forward : W -> W * error;
  compensate : W -> W * error
}.
Arguments NewStep {W} name forward compensate.
Arguments name {W} s.
Arguments forward {W} s ctx.
Arguments compensate {W} s ctx.

Definition Name {W} (s : Step W) : string := name s.
Definition ExecuteForward {W} (s : Step W) (w : W) : W * error := forward s w.
Definition ExecuteCompensate {W} (s : Step W) (w : W) : W * error := compensate s w.

(** ** state_manager.go: the interface

    Both methods take the state of the object behind the interface and
    return its new state with their results. *)

Class StateManager (S : Type) : Type := {
  SetStepState : S -> Z -> bool -> S * error;
  StepState : S -> Z -> S * (bool * error)
}.

(** ** in_memory_state_manager.go *)

Record InMemoryStateManager : Type := { state : gmap Z bool }.

Definition NewInMemoryStateManager : InMemoryStateManager :=
  {| state := ∅ |}.

Definition InMemory_SetStepState (m : InMemoryStateManager) (stepIndex : Z)
    (success : bool) : InMemoryStateManager * error :=
  ({| state := <[stepIndex := success]> (state m) |}, None).

Definition InMemory_StepState (m : InMemoryStateManager) (stepIndex : Z)
    : InMemoryStateManager * (bool * error) :=
  match state m !! stepIndex with
  | None => (m, (false, None))
  | Some st => (m, (st, None))
  end.

#[export] Instance InMemoryStateManager_StateManager
    : StateManager InMemoryStateManager :=
  {| SetStepState := InMemory_SetStepState;
     StepState := InMemory_StepState |}.

(** ** saga_test.go: the mock state manager *)

Record mockStateManager : Type := {
  setStepStateErr : error;
  stepState : bool;
  stepStateErr : error
}.

Definition mock_SetStepState (m : mockStateManager) (stepIndex : Z)
    (success : bool) : mockStateManager * error :=
  (m, setStepStateErr m).

Definition mock_StepState (m : mockStateManager) (stepIndex : Z)
    : mockStateManager * (bool * error) :=
  (m, (stepState m, stepStateErr m)).

#[export] Instance mockStateManager_StateManager
    : StateManager mockStateManager :=
  {| SetStepState := mock_SetStepState;
     StepState := mock_StepState |}.

(** ** saga.go: the data *)

Record saga (W S : Type) : Type := {
  steps : list (Step W);
  currentStep : Z;
  stateManager : S
}.
Arguments steps {W S} s.
Arguments currentStep {W S} s.
Arguments stateManager {W S} s.

Definition len {A} (l : list A) : Z := Z.of_nat (length l).

(** [l[i]]: an index below zero or not below [len(l)] panics. *)
Definition index {A} (l : list A) (i : Z) : option A :=
  if 0 <=? i then l !! Z.to_nat i else None.

(** Assignments to the fields [s.currentStep] and [s.stateManager]'s object. *)
Definition with_currentStep {W S} (i : Z) (s : saga W S) : saga W S :=
  {| steps := steps s; currentStep := i; stateManager := stateManager s |}.

Definition with_stateManager {W S} (sm : S) (s : saga W S) : saga W S :=
  {| steps := steps s; currentStep := currentStep s; stateManager := sm |}.

(** [New()]: no step, the default in-memory state manager. *)
Definition New {W} : saga W InMemoryStateManager :=
  {| steps := []; currentStep := 0; stateManager := NewInMemoryStateManager |}.

(** [New(WithStateManager(sm))]: the option replaces the state manager. *)
Definition WithStateManager {W S S'} (sm : S') (s : saga W S) : saga W S' :=
  {| steps := steps s; currentStep := currentStep s; stateManager := sm |}.

Definition AddStep {W S} (step : Step W) (s : saga W S) : saga W S :=
  {| steps := steps s ++ [step];
     currentStep := currentStep s;
     stateManager := stateManager s |}.

(** ** The calls a run makes, and how a run ends *)

Inductive event : Type :=
| EvStepState (stepIndex : Z) (completed : bool) (err : error)
| EvSetStepState (stepIndex : Z) (success : bool) (err : error)
| EvForward (stepIndex : Z) (err : error)
| EvCompensate (stepIndex : Z) (err : error).

Inductive outcome (A : Type) : Type :=
| Returns (a : A)
| Panics
| OutOfFuel.
Arguments Returns {A} a.
Arguments Panics {A}.
Arguments OutOfFuel {A}.

(** How one pass through the body of the loop of [Execute] ends: at the
    closing brace or a [continue], or at a [return]. *)
Inductive control : Type :=
| Continue
| Return (err : error).

Section Engine.
Context {W S : Type} `{StateManager S}.

(** A configuration: the saga object and the world of the step closures. *)
Definition config : Type := saga W S * W.

(** A computation changes the configuration, makes calls, and returns,
    panics, or is cut short by the bound on loop iterations. *)
Definition M (A : Type) : Type := config -> config * list event * outcome A.

Definition ret {A} (a : A) : M A := fun c => (c, [], Returns a).

Definition bind {A B} (m : M A) (f : A -> M B) : M B :=
  fun c =>
    match m c with
    | (c1, ev1, Returns a) =>
        match f a c1 with
        | (c2, ev2, r) => (c2, ev1 ++ ev2, r)
        end
    | (c1, ev1, Panics) => (c1, ev1, Panics)
    | (c1, ev1, OutOfFuel) => (c1, ev1, OutOfFuel)
    end.

Definition panic {A} : M A := fun c => (c, [], Panics).
Definition out_of_fuel {A} : M A := fun c => (c, [], OutOfFuel).

Definition get_saga : M (saga W S) := fun c => (c, [], Returns (fst c)).

Definition set_currentStep (i : Z) : M unit :=
  fun '(s, w) =>
    ((with_currentStep i s, w), [], Returns tt).

(** [s.steps[i]] *)
Definition steps_at (i : Z) : M (Step W) :=
  fun c =>
    match index (steps (fst c)) i with
    | Some step => (c, [], Returns step)
    | None => (c, [], Panics)
    end.

(** [s.stateManager.StepState(i)] *)
Definition call_StepState (i : Z) : M (bool * error) :=
  fun '(s, w) =>
    match StepState (stateManager s) i with
    | (sm, (completed, err)) =>
        ((with_stateManager sm s, w),
         [EvStepState i completed err], Returns (completed, err))
    end.

(** [s.stateManager.SetStepState(i, success)] *)
Definition call_SetStepState (i : Z) (success : bool) : M error :=
  fun '(s, w) =>
    match SetStepState (stateManager s) i success with
    | (sm, err) =>
        ((with_stateManager sm s, w),
         [EvSetStepState i success err], Returns err)
    end.

(** [step.ExecuteForward(ctx)], for the step at index [i] *)
Definition call_ExecuteForward (i : Z) (step : Step W) : M error :=
  fun '(s, w) =>
    match ExecuteForward step w with
    | (w', err) => ((s, w'), [EvForward i err], Returns err)
    end.

(** [step.ExecuteCompensate(ctx)], for the step at index [i] *)
Definition call_ExecuteCompensate (i : Z) (step : Step W) : M error :=
  fun '(s, w) =>
    match ExecuteCompensate step w with
    | (w', err) => ((s, w'), [EvCompensate i err], Returns err)
    end.

End Engine.

Declare Scope saga_scope.
Delimit Scope saga_scope with saga.
Notation "x <- m ;; k" := (bind m (fun x => k))
  (at level 100, m at next level, right associativity) : saga_scope.
Notation "m ;;; k" := (bind m (fun _ => k))
  (at level 100, right associativity) : saga_scope.

Section Saga.
Context {W S : Type} `{StateManager S}.
Open Scope saga_scope.

(** *** [Compensate] *)

(** The loop [for i := s.currentStep; i >= 0; i--]. *)
Fixpoint Compensate_loop (fuel : nat) (i : Z) (compensationErrors : list goerror)
    : M (W:=W) (S:=S) (list goerror) :=
  if 0 <=? i then
    match fuel with
    | O => out_of_fuel
    | Datatypes.S fuel' =>
        step <- steps_at i ;;
        err <- call_ExecuteCompensate i step ;;
        Compensate_loop fuel' (i - 1)
          match err with
          | Some err => compensationErrors ++ [err]
          | None => compensationErrors
          end
    end
  else ret compensationErrors.

Definition Compensate : M (W:=W) (S:=S) error :=
  s <- get_saga ;;
  compensationErrors <-
    Compensate_loop (Z.to_nat (currentStep s + 1)) (currentStep s) [] ;;
  if 0 <? len compensationErrors then
    ret (Some (fundamental
                 ("compensation failed with errors: " +:+ fmt_errors compensationErrors)))
  else ret None.

(** *** [Execute] *)

(** The body of the loop, at [s.currentStep]. *)
Definition Execute_body : M (W:=W) (S:=S) control :=
  s <- get_saga ;;
  step <- steps_at (currentStep s) ;;
  r <- call_StepState (currentStep s) ;;
  let '(stepCompleted, err) := r in
  match err with
  | Some err =>
      ret (Return (Some (errors_Wrapf err ("retrieving state for step " +:+ Name step))))
  | None =>
      if stepCompleted : bool then ret Continue
      else
        err <- call_ExecuteForward (currentStep s) step ;;
        match err with
        | Some err =>
            err' <- call_SetStepState (currentStep s) false ;;
            match err' with
            | Some err' =>
                ret (Return (Some (errors_Wrapf err'
                                     ("setting state for step " +:+ Name step))))
            | None =>
                errComp <- Compensate ;;
                match errComp with
                | Some errComp =>
                    ret (Return (Some (errors_Wrapf errComp
                           ("compensating after failure in step " +:+ Name step
                              +:+ ": " +:+ Error err))))
                | None =>
                    ret (Return (Some (errors_Wrapf err
                                         ("executing step " +:+ Name step))))
                end
            end
        | None =>
            err' <- call_SetStepState (currentStep s) true ;;
            match err' with
            | Some err' =>
                ret (Return (Some (errors_Wrapf err'
                                     ("setting state for step " +:+ Name step))))
            | None => ret Continue
            end
        end
  end.

(** The loop [for ...; s.currentStep < len(s.steps); s.currentStep++]. *)
Fixpoint Execute_loop (fuel : nat) : M (W:=W) (S:=S) error :=
  s <- get_saga ;;
  if currentStep s <? len (steps s) then
    match fuel with
    | O => out_of_fuel
    | Datatypes.S fuel' =>
        c <- Execute_body ;;
        match c with
        | Return err => ret err
        | Continue =>
            s' <- get_saga ;;
            set_currentStep (currentStep s' + 1) ;;;
            Execute_loop fuel'
        end
    end
  else ret None.

Definition Execute : M (W:=W) (S:=S) error :=
  set_currentStep 0 ;;;
  s <- get_saga ;;
  Execute_loop (length (steps s)).

End Saga.

(** ** Vocabulary for the properties *)

(** A call without its result. *)
Inductive call : Type :=
| CallStepState (stepIndex : Z)
| CallSetStepState (stepIndex : Z) (success : bool)
| CallForward (stepIndex : Z)
| CallCompensate (stepIndex : Z).

Definition call_of (ev : event) : call :=
  match ev with
  | EvStepState i _ _ => CallStepState i
  | EvSetStepState i b _ => CallSetStepState i b
  | EvForward i _ => CallForward i
  | EvCompensate i _ => CallCompensate i
  end.

Definition event_index (ev : event) : Z :=
  match ev with
  | EvStepState i _ _ | EvSetStepState i _ _ | EvForward i _ | EvCompensate i _ => i
  end.

Definition is_compensate (ev : event) : bool :=
  match ev with EvCompensate _ _ => true | _ => false end.

(** The errors of the compensating actions that failed, in the order of
    the calls. *)
Fixpoint failures (evs : list event) : list goerror :=
  match evs with
  | [] => []
  | EvCompensate _ (Some e) :: evs' => e :: failures evs'
  | _ :: evs' => failures evs'
  end.

(** [i, i-1, ..., 0] *)
Definition countdown (i : Z) : list Z := reverse (seqZ 0 (i + 1)).

(** The calls of a pass of the loop of [Execute] over a step that is not
    yet completed and whose forward action succeeds. *)
Definition completed_pass (j : Z) : list event :=
  [EvStepState j false None; EvForward j None; EvSetStepState j true None].

(** The error [Compensate] returns for the errors it collected. *)
Definition aggregated (errs : list goerror) : error :=
  match errs with
  | [] => None
  | _ :: _ =>
      Some (fundamental ("compensation failed with errors: " +:+ fmt_errors errs))
  end.

(** *** The contract of a step-state store

    A store that keeps its records: a finite map [records] from step
    indices to outcomes abstracts its state, a write always succeeds and
    overwrites the record of its index, a query leaves the records alone and,
    when it succeeds, reports the record of its index, or [false] when there
    is none. *)
Class RecordingStore (S : Type) `{StateManager S} : Type := {
  records : S -> gmap Z bool;
  StepState_records : forall m i, records (StepState m i).1 = records m;
  StepState_reports : forall m i,
    (StepState m i).2.2 = None ->
    (StepState m i).2.1 = default false (records m !! i);
  SetStepState_succeeds : forall m i b, (SetStepState m i b).2 = None;
  SetStepState_records : forall m i b,
    records (SetStepState m i b).1 = <[i := b]> (records m)
}.

(** A store all of whose operations succeed. *)
Class ReliableStore (S : Type) `{RecordingStore S} : Prop := {
  StepState_succeeds : forall m i, (StepState m i).2.2 = None
}.

(** [s.currentStep++], at the end of a pass of the loop of [Execute]. *)
Definition advance {W S} (c : saga W S * W) : saga W S * W :=
  (with_currentStep (currentStep c.1 + 1) c.1, c.2).

(** *** The steps of saga_test.go, over the world [ss.X] *)

Definition step1 : Step Z :=
  NewStep "step1" (fun _ => (1, None)) (fun _ => (0, None)).

Definition step2 : Step Z :=
  NewStep "step2" (fun _ => (2, None)) (fun x => (x - 1, None)).

Definition step1_failing : Step Z :=
  NewStep "step1" (fun x => (x, Some (errors_New "step1 error"))) (fun _ => (0, None)).

Definition step2_failing : Step Z :=
  NewStep "step2" (fun x => (x, Some (errors_New "step2 error")))
    (fun x => (x - 1, None)).

Definition step2_failing_twice : Step Z :=
  NewStep "step2" (fun x => (x, Some (errors_New "step2 error")))
    (fun x => (x, Some (errors_New "step2 compensate error"))).

(** The mock state managers of the cases "error when getting step state"
    and "error when setting step state". *)
Definition mock_query_fails : mockStateManager :=
  {| setStepStateErr := None; stepState := false;
     stepStateErr := Some (errors_New "step state error") |}.

Definition mock_write_fails : mockStateManager :=
  {| setStepStateErr := Some (errors_New "set step state error");
     stepState := false; stepStateErr := None |}.

(** [Execute] watched at the head of its loop: the run is cut there once
    [n] passes are done, with outcome [OutOfFuel] if the loop had not ended
    by then. *)
Definition Execute_upto {W S} `{StateManager S} (n : nat) : M (W:=W) (S:=S) error :=
  bind (set_currentStep 0) (fun _ => Execute_loop n).

(** The forward actions of the steps [l], which start at index [i], called
    one after the other from the world [w] until one fails: the index and
    the error of the first that fails. *)
Fixpoint first_to_fail {W} (l : list (Step W)) (i : Z) (w : W) : option (Z * goerror) :=
  match l with
  | [] => None
  | step :: l' =>
      match ExecuteForward step w with
      | (_, Some e) => Some (i, e)
      | (w', None) => first_to_fail l' (i + 1) w'
      end
  end.

(** *** [new]: a saga behind the interface, and its options

    A value of the interface type [StateManager]: an object of some type
    that has the two methods.  The methods of the interface value are those
    of the object in it. *)
Record AnyStateManager : Type := AnySM {
  sm_type : Type;
  sm_methods : StateManager sm_type;
  sm_object : sm_type
}.
Arguments AnySM {sm_type sm_methods} sm_object.

Definition Any_SetStepState (m : AnyStateManager) (stepIndex : Z) (success : bool)
    : AnyStateManager * error :=
  match @SetStepState _ (sm_methods m) (sm_object m) stepIndex success with
  | (o, err) => (@AnySM _ (sm_methods m) o, err)
  end.

Definition Any_StepState (m : AnyStateManager) (stepIndex : Z)
    : AnyStateManager * (bool * error) :=
  match @StepState _ (sm_methods m) (sm_object m) stepIndex with
  | (o, res) => (@AnySM _ (sm_methods m) o, res)
  end.

#[export] Instance AnyStateManager_StateManager : StateManager AnyStateManager :=
  {| SetStepState := Any_SetStepState; StepState := Any_StepState |}.

(** The type [Option]: a function that changes the saga it is given;
    [WithStateManager sm] above is one. *)
Definition Option (W : Type) : Type :=
  saga W AnyStateManager -> saga W AnyStateManager.

(** [new(options)]: the saga with no step and the in-memory state manager,
    to which the options are applied in order. *)
Definition new {W} (options : list (Option W)) : saga W AnyStateManager :=
  foldl (fun s option => option s)
    {| steps := []; currentStep := 0;
       stateManager := AnySM NewInMemoryStateManager |}
    options.

(** An in-memory store in which the steps 0 and 1 are recorded completed. *)
Definition two_completed : InMemoryStateManager :=
  {| state := <[1 := true]> (<[0 := true]> ∅) |}.

(** *** More vocabulary for the properties *)

(** The error a call returned. *)
Definition event_error (ev : event) : error :=
  match ev with
  | EvStepState _ _ err | EvSetStepState _ _ err
  | EvForward _ err | EvCompensate _ err => err
  end.

(** The indices of the forward actions called, in the order of the calls. *)
Fixpoint forward_indices (evs : list event) : list Z :=
  match evs with
  | [] => []
  | EvForward i _ :: evs' => i :: forward_indices evs'
  | _ :: evs' => forward_indices evs'
  end.

(** The calls of passes of the loop of [Execute] that end at the closing
    brace or at [continue], over the steps from [i] up to [k], [k] left
    out: each pass either finds its step completed or completes it. *)
Inductive clean_passes : Z -> Z -> list event -> Prop :=
| clean_none i : clean_passes i i []
| clean_skipped i k evs :
    clean_passes (i + 1) k evs ->
    clean_passes i k (EvStepState i true None :: evs)
| clean_completed i k evs :
    clean_passes (i + 1) k evs ->
    clean_passes i k (completed_pass i ++ evs).

(** The calls of the pass of the loop of [Execute] that returns, at step
    [k] named [nm], with the error [Execute] returns. *)
Inductive faulty_pass (k : Z) (nm : string) : list event -> goerror -> Prop :=
| faulty_query completed e :
    faulty_pass k nm [EvStepState k completed (Some e)]
      (errors_Wrapf e ("retrieving state for step " +:+ nm))
| faulty_forward_unrecorded e e' :
    faulty_pass k nm
      [EvStepState k false None; EvForward k (Some e);
       EvSetStepState k false (Some e')]
      (errors_Wrapf e' ("setting state for step " +:+ nm))
| faulty_forward comps e :
    call_of <$> comps = CallCompensate <$> countdown k ->
    faulty_pass k nm
      ([EvStepState k false None; EvForward k (Some e);
        EvSetStepState k false None] ++ comps)
      match aggregated (failures comps) with
      | Some errComp =>
          errors_Wrapf errComp
            ("compensating after failure in step " +:+ nm +:+ ": " +:+ Error e)
      | None => errors_Wrapf e ("executing step " +:+ nm)
      end
| faulty_success_unrecorded e' :
    faulty_pass k nm
      [EvStepState k false None; EvForward k None;
       EvSetStepState k true (Some e')]
      (errors_Wrapf e' ("setting state for step " +:+ nm)).

(** The world after the forward actions of the steps [l], called one after
    the other from [w] up to and with the first that fails. *)
Fixpoint forwards {W} (l : list (Step W)) (w : W) : W :=
  match l with
  | [] => w
  | step :: l' =>
      match ExecuteForward step w with
      | (w', Some _) => w'
      | (w', None) => forwards l' w'
      end
  end.

(** The world after the compensating actions of the steps [l], all called
    one after the other from [w]. *)
Fixpoint compensations {W} (l : list (Step W)) (w : W) : W :=
  match l with
  | [] => w
  | step :: l' => compensations l' (ExecuteCompensate step w).1
  end.

(** *** The passes through the body of the loop of [Execute]

    What one pass over the step at [s.currentStep] does, case by case: the
    configuration it leaves, the calls it makes, and how it ends. *)
Section BodyRun.
Context {W S : Type} `{StateManager S}.

Inductive body_run (s : saga W S) (w : W) (step : Step W)
    : config (W:=W) (S:=S) -> list event -> outcome control -> Prop :=
| body_query_fails sm completed e :
    StepState (stateManager s) (currentStep s) = (sm, (completed, Some e)) ->
    body_run s w step (with_stateManager sm s, w)
      [EvStepState (currentStep s) completed (Some e)]
      (Returns (Return (Some
         (errors_Wrapf e ("retrieving state for step " +:+ Name step)))))
| body_skips sm :
    StepState (stateManager s) (currentStep s) = (sm, (true, None)) ->
    body_run s w step (with_stateManager sm s, w)
      [EvStepState (currentStep s) true None]
      (Returns Continue)
| body_fails_unrecorded sm w1 e sm' e' :
    StepState (stateManager s) (currentStep s) = (sm, (false, None)) ->
    ExecuteForward step w = (w1, Some e) ->
    SetStepState sm (currentStep s) false = (sm', Some e') ->
    body_run s w step (with_stateManager sm' s, w1)
      [EvStepState (currentStep s) false None;
       EvForward (currentStep s) (Some e);
       EvSetStepState (currentStep s) false (Some e')]
      (Returns (Return (Some
         (errors_Wrapf e' ("setting state for step " +:+ Name step)))))
| body_fails_compensated sm w1 e sm' w2 comps :
    StepState (stateManager s) (currentStep s) = (sm, (false, None)) ->
    ExecuteForward step w = (w1, Some e) ->
    SetStepState sm (currentStep s) false = (sm', None) ->
    Compensate (with_stateManager sm' s, w1)
      = ((with_stateManager sm' s, w2), comps, Returns (aggregated (failures comps))) ->
    call_of <$> comps = CallCompensate <$> countdown (currentStep s) ->
    body_run s w step (with_stateManager sm' s, w2)
      ([EvStepState (currentStep s) false None;
        EvForward (currentStep s) (Some e);
        EvSetStepState (currentStep s) false None] ++ comps)
      (Returns (Return (Some
         match aggregated (failures comps) with
         | Some errComp =>
             errors_Wrapf errComp
               ("compensating after failure in step " +:+ Name step
                  +:+ ": " +:+ Error e)
         | None => errors_Wrapf e ("executing step " +:+ Name step)
         end)))
| body_succeeds_unrecorded sm w1 sm' e' :
    StepState (stateManager s) (currentStep s) = (sm, (false, None)) ->
    ExecuteForward step w = (w1, None) ->
    SetStepState sm (currentStep s) true = (sm', Some e') ->
    body_run s w step (with_stateManager sm' s, w1)
      [EvStepState (currentStep s) false None;
       EvForward (currentStep s) None;
       EvSetStepState (currentStep s) true (Some e')]
      (Returns (Return (Some
         (errors_Wrapf e' ("setting state for step " +:+ Name step)))))
| body_completes sm w1 sm' :
    StepState (stateManager s) (currentStep s) = (sm, (false, None)) ->
    ExecuteForward step w = (w1, None) ->
    SetStepState sm (currentStep s) true = (sm', None) ->
    body_run s w step (with_stateManager sm' s, w1)
      (completed_pass (currentStep s))
      (Returns Continue).

End BodyRun.

(** ** The in-memory store keeps its records and never fails *)

#[export] Program Instance InMemoryStateManager_RecordingStore
    : RecordingStore InMemoryStateManager :=
  {| records := state |}.
Next Obligation. intros m i. simpl. unfold InMemory_StepState. by destruct (state m !! i). Qed.
Next Obligation.
  intros m i _. simpl. unfold InMemory_StepState. by destruct (state m !! i).
Qed.
Next Obligation. done. Qed.
Next Obligation. done. Qed.

#[export] Instance InMemoryStateManager_ReliableStore
    : ReliableStore InMemoryStateManager.
Proof.
  constructor. intros m i. simpl. unfold InMemory_StepState.
  by destruct (state m !! i).
Qed.

(** ** Indexing and counting down *)

Lemma index_is_Some {A} (l : list A) (i : Z) :
  0 <= i < len l -> exists x, index l i = Some x.
Proof.
  intros [Hlo Hhi]. unfold index, len in *.
  destruct (Z.leb_spec 0 i); [|lia].
  apply lookup_lt_is_Some_2. lia.
Qed.

Lemma index_Some_range {A} (l : list A) (i : Z) (x : A) :
  index l i = Some x -> 0 <= i < len l.
Proof.
  unfold index, len. destruct (Z.leb_spec 0 i); [|done].
  intros Hx. apply lookup_lt_Some in Hx. lia.
Qed.

Lemma index_out_of_range {A} (l : list A) (i : Z) :
  len l <= i -> index l i = None.
Proof.
  intros Hi. unfold index, len in *. destruct (Z.leb_spec 0 i); [|done].
  apply lookup_ge_None_2. lia.
Qed.

Lemma countdown_negative (i : Z) : i < 0 -> countdown i = [].
Proof. intros Hi. unfold countdown. rewrite seqZ_nil; [done | lia]. Qed.

Lemma countdown_unfold (i : Z) : 0 <= i -> countdown i = i :: countdown (i - 1).
Proof.
  intros Hi. unfold countdown.
  replace (i + 1) with (i - 1 + 1 + 1) at 1 by lia.
  rewrite seqZ_app by lia. rewrite reverse_app.
  replace (0 + (i - 1 + 1)) with i by lia. done.
Qed.

Lemma elem_of_countdown (i j : Z) : j ∈ countdown i <-> 0 <= j <= i.
Proof. unfold countdown. rewrite elem_of_reverse, elem_of_seqZ. lia. Qed.

Lemma failures_app (evs1 evs2 : list event) :
  failures (evs1 ++ evs2) = failures evs1 ++ failures evs2.
Proof.
  induction evs1 as [|[| | |j [e|]] evs1 IH]; simpl; by rewrite ?IH.
Qed.

(** ** [Compensate] *)

Section CompensateFacts.
Context {W S : Type} `{StateManager S}.
Implicit Types (s : saga W S) (w : W).

Lemma Compensate_loop_exit fuel i errs (c : config (W:=W) (S:=S)) :
  i < 0 -> Compensate_loop fuel i errs c = (c, [], Returns errs).
Proof. intros Hi. destruct fuel; simpl; by destruct (Z.leb_spec 0 i); [lia|]. Qed.

Lemma Compensate_loop_pass fuel i errs s w step :
  index (steps s) i = Some step ->
  Compensate_loop (Datatypes.S fuel) i errs (s, w) =
    match ExecuteCompensate step w with
    | (w', err) =>
        match Compensate_loop fuel (i - 1)
                match err with Some e => errs ++ [e] | None => errs end (s, w')
        with
        | (c, evs, r) => (c, EvCompensate i err :: evs, r)
        end
    end.
Proof.
  intros Hstep. pose proof (index_Some_range _ _ _ Hstep) as Hrange.
  simpl. destruct (Z.leb_spec 0 i); [|lia].
  unfold bind at 1, steps_at. simpl. rewrite Hstep.
  unfold bind, call_ExecuteCompensate.
  destruct (ExecuteCompensate step w) as [w' err].
  by destruct (Compensate_loop fuel (i - 1) _ (s, w')) as [[c evs] r].
Qed.

Lemma Compensate_unfold s w :
  Compensate (s, w) =
    match Compensate_loop (Z.to_nat (currentStep s + 1)) (currentStep s) [] (s, w) with
    | (c, evs, Returns errs) => (c, evs, Returns (aggregated errs))
    | (c, evs, Panics) => (c, evs, Panics)
    | (c, evs, OutOfFuel) => (c, evs, OutOfFuel)
    end.
Proof.
  unfold Compensate, bind, get_saga. simpl.
  destruct (Compensate_loop _ _ _ _) as [[c evs] [errs| |]]; try done.
  unfold ret, len. destruct errs; simpl; by rewrite app_nil_r.
Qed.

(** The loop calls the compensating action of every index from [i] down to
    0, whatever the earlier calls returned, and appends the errors in the
    order of the calls. *)
Lemma Compensate_loop_run fuel i errs s w :
  i < len (steps s) -> (Z.to_nat (i + 1) <= fuel)%nat ->
  exists w' evs,
    Compensate_loop fuel i errs (s, w) = ((s, w'), evs, Returns (errs ++ failures evs))
    /\ call_of <$> evs = CallCompensate <$> countdown i.
Proof.
  revert i errs w. induction fuel as [|fuel IH]; intros i errs w Hi Hfuel.
  - assert (i < 0) as Hneg by lia.
    exists w, []. simpl. destruct (Z.leb_spec 0 i); [lia|].
    rewrite countdown_negative by done. by rewrite app_nil_r.
  - simpl. destruct (Z.leb_spec 0 i) as [Hpos|Hneg].
    + destruct (index_is_Some (steps s) i) as [step Hstep]; [lia|].
      unfold bind at 1, steps_at. simpl. rewrite Hstep.
      unfold bind, call_ExecuteCompensate.
      destruct (ExecuteCompensate step w) as [w1 err] eqn:Hcomp.
      destruct (IH (i - 1)
                  match err with Some e => errs ++ [e] | None => errs end w1)
        as (w' & evs & Hrun & Hcalls); [lia | lia |].
      rewrite Hrun. exists w', (EvCompensate i err :: evs). split.
      * simpl. do 2 f_equal. destruct err; simpl; [|done].
        by rewrite <- app_assoc.
      * rewrite countdown_unfold by done. rewrite !fmap_cons. by rewrite Hcalls.
    + exists w, []. rewrite countdown_negative by done.
      unfold ret. by rewrite app_nil_r.
Qed.

(** Within the steps, [Compensate] returns: it has called every
    compensating action from the current step down to step 0, and its
    error aggregates those of the calls that failed. *)
Lemma Compensate_run s w :
  currentStep s < len (steps s) ->
  exists w' evs,
    Compensate (s, w) = ((s, w'), evs, Returns (aggregated (failures evs)))
    /\ call_of <$> evs = CallCompensate <$> countdown (currentStep s).
Proof.
  intros Hcur. unfold Compensate, bind, get_saga. simpl.
  destruct (Compensate_loop_run (Z.to_nat (currentStep s + 1)) (currentStep s) [] s w)
    as (w' & evs & Hrun & Hcalls); [done | lia |].
  rewrite Hrun. simpl. exists w', evs. split; [|done].
  unfold ret, len. destruct (failures evs) as [|e errs]; simpl; by rewrite app_nil_r.
Qed.

(** At or past the end of the steps, the first index panics. *)
Lemma Compensate_out_of_range s w :
  0 <= currentStep s -> len (steps s) <= currentStep s ->
  Compensate (s, w) = ((s, w), [], Panics).
Proof.
  intros Hpos Hcur. unfold Compensate, bind, get_saga. simpl.
  destruct (Z.to_nat (currentStep s + 1)) as [|fuel] eqn:Hfuel; [lia|].
  simpl. destruct (Z.leb_spec 0 (currentStep s)); [|lia].
  unfold bind, steps_at. simpl. by rewrite index_out_of_range.
Qed.

End CompensateFacts.

(** ** [Execute]: one pass, and the loop *)

Section ExecuteFacts.
Context {W S : Type} `{StateManager S}.
Implicit Types (s : saga W S) (w : W).

Local Ltac fold_stateManager :=
  repeat match goal with
  | |- context [with_stateManager ?a (with_stateManager ?b ?s)] =>
      change (with_stateManager a (with_stateManager b s))
        with (with_stateManager a s)
  end.

Lemma Execute_body_run s w step c' evs r :
  index (steps s) (currentStep s) = Some step ->
  Execute_body (s, w) = (c', evs, r) ->
  body_run s w step c' evs r.
Proof.
  intros Hstep. pose proof (index_Some_range _ _ _ Hstep) as Hrange.
  unfold Execute_body, bind, get_saga, steps_at. simpl. rewrite Hstep.
  unfold call_StepState.
  destruct (StepState (stateManager s) (currentStep s))
    as [sm [completed [e|]]] eqn:Hquery; simpl.
  { intros [= <- <- <-]. by eapply body_query_fails. }
  destruct completed; simpl.
  { intros [= <- <- <-]. by eapply body_skips. }
  unfold call_ExecuteForward.
  destruct (ExecuteForward step w) as [w1 [e|]] eqn:Hforward; simpl.
  - destruct (SetStepState sm (currentStep s) false) as [sm' [e'|]] eqn:Hset;
      simpl; fold_stateManager.
    { intros [= <- <- <-]. by eapply body_fails_unrecorded. }
    destruct (Compensate_run (with_stateManager sm' s) w1)
      as (w2 & comps & Hcomp & Hcalls); [simpl; lia|].
    simpl in Hcalls. rewrite Hcomp.
    pose proof (body_fails_compensated s w step sm w1 e sm' w2 comps
                  Hquery Hforward Hset Hcomp Hcalls) as Hrun.
    destruct (aggregated (failures comps)); simpl;
      rewrite app_nil_r; by intros [= <- <- <-].
  - destruct (SetStepState sm (currentStep s) true) as [sm' [e'|]] eqn:Hset;
      simpl; fold_stateManager.
    { intros [= <- <- <-]. by eapply body_succeeds_unrecorded. }
    intros [= <- <- <-]. by eapply body_completes.
Qed.

Lemma Execute_loop_exit fuel s w :
  len (steps s) <= currentStep s ->
  Execute_loop fuel (s, w) = ((s, w), [], Returns None).
Proof.
  intros Hcur. destruct fuel; simpl; unfold bind, get_saga; simpl;
    by destruct (Z.ltb_spec (currentStep s) (len (steps s))); [lia|].
Qed.

Lemma Execute_loop_cut s w :
  currentStep s < len (steps s) ->
  Execute_loop 0 (s, w) = ((s, w), [], OutOfFuel).
Proof.
  intros Hcur. simpl; unfold bind, get_saga; simpl.
  by destruct (Z.ltb_spec (currentStep s) (len (steps s))); [|lia].
Qed.

Lemma Execute_loop_pass fuel s w :
  currentStep s < len (steps s) ->
  Execute_loop (Datatypes.S fuel) (s, w) =
    match Execute_body (s, w) with
    | (c1, ev1, Returns Continue) =>
        match Execute_loop fuel (advance c1) with
        | (c2, ev2, r) => (c2, ev1 ++ ev2, r)
        end
    | (c1, ev1, Returns (Return err)) => (c1, ev1, Returns err)
    | (c1, ev1, Panics) => (c1, ev1, Panics)
    | (c1, ev1, OutOfFuel) => (c1, ev1, OutOfFuel)
    end.
Proof.
  intros Hcur. simpl. unfold bind at 1, get_saga at 1. simpl.
  destruct (Z.ltb_spec (currentStep s) (len (steps s))); [|lia].
  unfold bind at 1.
  destruct (Execute_body (s, w)) as [[[s1 w1] ev1] [[|err]| |]]; simpl; try done.
  - unfold bind, get_saga, set_currentStep, advance. simpl.
    by destruct (Execute_loop fuel _) as [[c2 ev2] r].
  - by rewrite app_nil_r.
Qed.

Lemma Execute_unfold s w :
  Execute (s, w) = Execute_loop (length (steps s)) (with_currentStep 0 s, w).
Proof.
  unfold Execute, bind, set_currentStep, get_saga. simpl.
  by destruct (Execute_loop _ _) as [[c ev] r].
Qed.

(** Induction on the passes of the loop: a property of the runs of the
    loop holds when it holds of the runs that leave at once, of those cut
    by the bound on the iterations, of those whose first pass returns, and
    is carried from the rest of a run over a first pass that continues. *)
Lemma Execute_loop_runs
    (P : config (W:=W) (S:=S) -> config (W:=W) (S:=S) -> list event
         -> outcome error -> Prop) :
  (forall s w, len (steps s) <= currentStep s -> P (s, w) (s, w) [] (Returns None)) ->
  (forall s w, currentStep s < len (steps s) -> P (s, w) (s, w) [] OutOfFuel) ->
  (forall s w step c' evs err,
      index (steps s) (currentStep s) = Some step ->
      body_run s w step c' evs (Returns (Return err)) ->
      P (s, w) c' evs (Returns err)) ->
  (forall s w step c1 ev1 c2 ev2 r,
      index (steps s) (currentStep s) = Some step ->
      body_run s w step c1 ev1 (Returns Continue) ->
      P (advance c1) c2 ev2 r ->
      P (s, w) c2 (ev1 ++ ev2) r) ->
  forall fuel s w c' evs r,
    0 <= currentStep s ->
    Execute_loop fuel (s, w) = (c', evs, r) ->
    P (s, w) c' evs r.
Proof.
  intros Hexit Hcut Hreturn Hcontinue.
  induction fuel as [|fuel IH]; intros s w c' evs r Hpos Hrun.
  - destruct (Z.lt_ge_cases (currentStep s) (len (steps s))) as [Hcur|Hcur].
    + rewrite Execute_loop_cut in Hrun by done.
      injection Hrun as <- <- <-. by apply Hcut.
    + rewrite Execute_loop_exit in Hrun by done.
      injection Hrun as <- <- <-. by apply Hexit.
  - destruct (Z.lt_ge_cases (currentStep s) (len (steps s))) as [Hcur|Hcur].
    + rewrite Execute_loop_pass in Hrun by done.
      destruct (index_is_Some (steps s) (currentStep s)) as [step Hstep]; [lia|].
      destruct (Execute_body (s, w)) as [[c1 ev1] r1] eqn:Hbody.
      apply (Execute_body_run _ _ step) in Hbody; [|done].
      destruct r1 as [[|err]| |]; [| |inversion Hbody..].
      * destruct (Execute_loop fuel (advance c1)) as [[c2 ev2] r2] eqn:Hrest.
        injection Hrun as <- <- <-.
        eapply Hcontinue; [done..|]. apply IH; [|done].
        inversion Hbody; subst; simpl; lia.
      * injection Hrun as <- <- <-. by eapply Hreturn.
    + rewrite Execute_loop_exit in Hrun by done.
      injection Hrun as <- <- <-. by apply Hexit.
Qed.

(** The bound [Execute] gives the loop is never reached. *)
Lemma Execute_loop_fuel fuel s w :
  0 <= currentStep s ->
  (Z.to_nat (len (steps s) - currentStep s) <= fuel)%nat ->
  (Execute_loop fuel (s, w)).2 <> OutOfFuel.
Proof.
  revert s w. induction fuel as [|fuel IH]; intros s w Hpos Hfuel.
  - rewrite Execute_loop_exit by lia. done.
  - destruct (Z.lt_ge_cases (currentStep s) (len (steps s))) as [Hcur|Hcur];
      [|by rewrite Execute_loop_exit].
    rewrite Execute_loop_pass by done.
    destruct (index_is_Some (steps s) (currentStep s)) as [step Hstep]; [lia|].
    destruct (Execute_body (s, w)) as [[c1 ev1] r1] eqn:Hbody.
    apply (Execute_body_run _ _ step) in Hbody; [|done].
    destruct r1 as [[|err]| |]; [|done|inversion Hbody..].
    destruct (Execute_loop fuel (advance c1)) as [[c2 ev2] r2] eqn:Hrest.
    simpl. replace r2 with (Execute_loop fuel (advance c1)).2 by by rewrite Hrest.
    destruct c1 as [s1 w1]. apply IH; inversion Hbody; subst; simpl; lia.
Qed.

(** The loop leaves the steps alone and moves [currentStep] forward
    within them; it returns nil exactly at their end, and an error at the
    step that caused it. *)
Lemma Execute_loop_frame fuel s w c' evs r :
  0 <= currentStep s <= len (steps s) ->
  Execute_loop fuel (s, w) = (c', evs, r) ->
  steps c'.1 = steps s
  /\ currentStep s <= currentStep c'.1 <= len (steps s)
  /\ (r = Returns None -> currentStep c'.1 = len (steps s))
  /\ (forall err, r = Returns (Some err) -> currentStep c'.1 < len (steps s)).
Proof.
  intros Hcur Hrun.
  assert (0 <= currentStep s) as Hpos by lia.
  revert Hcur. revert fuel s w c' evs r Hpos Hrun.
  apply (Execute_loop_runs (fun c c' evs r =>
    0 <= currentStep c.1 <= len (steps c.1) ->
    steps c'.1 = steps c.1
    /\ currentStep c.1 <= currentStep c'.1 <= len (steps c.1)
    /\ (r = Returns None -> currentStep c'.1 = len (steps c.1))
    /\ (forall err, r = Returns (Some err) -> currentStep c'.1 < len (steps c.1))));
    simpl.
  - intros s w Hend Hcur. repeat split; try lia. done.
  - intros s w Hlt Hcur. repeat split; try lia; done.
  - intros s w step c' evs err Hstep Hbody Hcur.
    apply index_Some_range in Hstep.
    inversion Hbody; subst; simpl; repeat split; try lia; done.
  - intros s w step c1 ev1 c2 ev2 r Hstep Hbody IH Hcur.
    apply index_Some_range in Hstep.
    inversion Hbody; subst; simpl in *.
    all: destruct IH as (Hsteps & Hle & Hnil & Herr); [lia|].
    all: repeat split; try done; try lia.
    all: intros err Hr; by apply Herr in Hr.
Qed.

(** [Execute] returns: it neither panics nor reaches the bound on the
    passes of its loop. *)
Lemma Execute_returns s w :
  exists c' evs err, Execute (s, w) = (c', evs, Returns err).
Proof.
  rewrite Execute_unfold.
  destruct (Execute_loop _ _) as [[c' evs] r] eqn:Hrun. exists c', evs.
  pose proof (Execute_loop_fuel (length (steps s)) (with_currentStep 0 s) w) as Hfuel.
  rewrite Hrun in Hfuel. simpl in Hfuel.
  assert (forall fuel s0 w0 c0 evs0 r0,
             0 <= currentStep s0 ->
             Execute_loop fuel (s0, w0) = (c0, evs0, r0) -> r0 <> Panics)
    as Hpanic by (apply (Execute_loop_runs (fun _ _ _ r => r <> Panics)); done).
  apply Hpanic in Hrun; [|done].
  destruct r as [err| |]; [by exists err|done|].
  exfalso. apply Hfuel; [done | unfold len; simpl; lia | done].
Qed.

End ExecuteFacts.

(** ** Properties of [Compensate] *)

Lemma countdown_split (i j : Z) (a b : list Z) :
  countdown i = a ++ j :: b -> b = countdown (j - 1).
Proof.
  revert i. induction a as [|x a IH]; intros i Hsplit.
  - destruct (Z.lt_ge_cases i 0) as [Hneg|Hpos].
    + by rewrite countdown_negative in Hsplit.
    + rewrite countdown_unfold in Hsplit by done. by injection Hsplit as -> ->.
  - destruct (Z.lt_ge_cases i 0) as [Hneg|Hpos].
    + by rewrite countdown_negative in Hsplit.
    + rewrite countdown_unfold in Hsplit by done.
      injection Hsplit as -> Hsplit. by eapply IH.
Qed.

Lemma failures_elem_of (evs : list event) (j : Z) (e : goerror) :
  EvCompensate j (Some e) ∈ evs -> e ∈ failures evs.
Proof.
  intros (pre & post & ->)%list_elem_of_split.
  rewrite failures_app. simpl. set_solver.
Qed.

Section CompensateProperties.
Context {W S : Type} `{StateManager S}.
Implicit Types (s : saga W S) (w : W).

(** C5. Compensation is best-effort and aggregating.  From any saga
    state, when a pass of [Compensate] has the compensating action of step
    [j] fail: the pass calls the compensating action of every step from the
    current one down to step 0, in that order; after the failing call come
    the calls of the steps [j-1] down to 0; and [Compensate] returns one
    error, whose message lists the errors of all the calls that failed, in
    the order of the calls, that of step [j] among them. *)
Theorem Compensate_best_effort s w c' evs r j e :
  Compensate (s, w) = (c', evs, r) ->
  EvCompensate j (Some e) ∈ evs ->
  call_of <$> evs = CallCompensate <$> countdown (currentStep s)
  /\ (exists pre post,
        evs = pre ++ EvCompensate j (Some e) :: post
        /\ call_of <$> post = CallCompensate <$> countdown (j - 1))
  /\ r = Returns (Some (fundamental
           ("compensation failed with errors: " +:+ fmt_errors (failures evs))))
  /\ (forall j' e', EvCompensate j' (Some e') ∈ evs -> e' ∈ failures evs).
Proof.
  intros Hrun Hfail.
  destruct (Z.lt_ge_cases (currentStep s) (len (steps s))) as [Hcur|Hcur].
  - destruct (Compensate_run s w Hcur) as (w' & evs' & Hrun' & Hcalls).
    rewrite Hrun in Hrun'. injection Hrun' as -> <- ->.
    split; [done|]. split; [|split].
    + destruct (list_elem_of_split _ _ Hfail) as (pre & post & ->).
      exists pre, post. split; [done|].
      rewrite fmap_app, fmap_cons in Hcalls. symmetry in Hcalls.
      apply fmap_app_inv in Hcalls as (a & b' & Hpre & Hpost & Hcount).
      symmetry in Hpost.
      apply fmap_cons_inv in Hpost as (x & b & [= ->] & Hb & ->).
      apply countdown_split in Hcount. by rewrite Hb, Hcount.
    + apply failures_elem_of in Hfail.
      destruct (failures evs) as [|e0 errs]; [|done].
      by apply elem_of_nil in Hfail.
    + intros j' e'. apply failures_elem_of.
  - assert (0 <= currentStep s) as Hpos by (unfold len in Hcur; lia).
    rewrite Compensate_out_of_range in Hrun by done.
    injection Hrun as <- <- <-. by apply elem_of_nil in Hfail.
Qed.

(** C10. [Compensate] indexes the steps from [currentStep] down without a
    check.  For a current step that is not negative: below [len(steps)] the
    call returns, and at or above it the call panics on its first index,
    before any compensating action.  So it panics on a saga that has no
    step, and on any saga on which [Execute] has just returned nil, which
    leaves [currentStep] at [len(steps)]. *)
Theorem Compensate_index_out_of_range s w :
  (0 <= currentStep s < len (steps s) ->
     exists w' evs err, Compensate (s, w) = ((s, w'), evs, Returns err))
  /\ (0 <= currentStep s -> len (steps s) <= currentStep s ->
        Compensate (s, w) = ((s, w), [], Panics))
  /\ (forall sm : S,
        Compensate ({| steps := []; currentStep := 0; stateManager := sm |}, w)
          = (({| steps := []; currentStep := 0; stateManager := sm |}, w), [], Panics))
  /\ (forall c' evs,
        Execute (s, w) = (c', evs, Returns None) ->
        currentStep c'.1 = len (steps c'.1)
        /\ Compensate c' = (c', [], Panics)).
Proof.
  split; [|split; [|split]].
  - intros [_ Hcur]. destruct (Compensate_run s w Hcur) as (w' & evs & Hrun & _).
    by exists w', evs, (aggregated (failures evs)).
  - apply Compensate_out_of_range.
  - intros sm. by apply Compensate_out_of_range.
  - intros c' evs. rewrite Execute_unfold. intros Hrun.
    apply Execute_loop_frame in Hrun as (Hsteps & Hle & Hnil & _);
      [|simpl; unfold len; lia].
    specialize (Hnil eq_refl). destruct c' as [s' w']. simpl in *.
    rewrite Hsteps. split; [done|].
    apply Compensate_out_of_range; rewrite ?Hsteps, Hnil; unfold len; lia.
Qed.

End CompensateProperties.

(** ** Properties of [Execute] with any state manager *)

Lemma compensations_only (comps : list event) (l : list Z) (ev : event) :
  call_of <$> comps = CallCompensate <$> l ->
  ev ∈ comps -> exists j res, ev = EvCompensate j res /\ j ∈ l.
Proof.
  intros Hcalls Hev. apply (list_elem_of_fmap_2 call_of) in Hev.
  rewrite Hcalls in Hev. apply list_elem_of_fmap in Hev as (j & Hj & Hin).
  destruct ev; simplify_eq/=. eauto.
Qed.

(** Membership in a list written out: one case for each element. *)
Ltac elem_of_cases H :=
  unfold completed_pass in H;
  repeat (apply elem_of_cons in H as [H|H]; [try discriminate H|]);
  try (apply elem_of_nil in H; destruct H).

Section ExecuteFatalities.
Context {W S : Type} `{StateManager S}.
Implicit Types (s : saga W S) (w : W).

Lemma Execute_loop_query_fails fuel s w c' evs r i completed e :
  0 <= currentStep s ->
  Execute_loop fuel (s, w) = (c', evs, r) ->
  EvStepState i completed (Some e) ∈ evs ->
  currentStep s <= i
  /\ exists step pre,
      index (steps s) i = Some step
      /\ r = Returns (Some (errors_Wrapf e ("retrieving state for step " +:+ Name step)))
      /\ evs = pre ++ [EvStepState i completed (Some e)]
      /\ forall ev, ev ∈ pre -> event_index ev < i /\ is_compensate ev = false.
Proof.
  intros Hpos Hrun. revert i completed e. revert fuel s w c' evs r Hpos Hrun.
  apply (Execute_loop_runs (fun c c' evs r =>
    forall i completed e,
      EvStepState i completed (Some e) ∈ evs ->
      currentStep c.1 <= i
      /\ exists step pre,
          index (steps c.1) i = Some step
          /\ r = Returns (Some (errors_Wrapf e ("retrieving state for step " +:+ Name step)))
          /\ evs = pre ++ [EvStepState i completed (Some e)]
          /\ forall ev, ev ∈ pre -> event_index ev < i /\ is_compensate ev = false));
    simpl.
  - intros s w _ i completed e Hin. by apply elem_of_nil in Hin.
  - intros s w _ i completed e Hin. by apply elem_of_nil in Hin.
  - intros s w step c' evs err Hstep Hbody i completed e Hin.
    inversion Hbody; subst.
    + apply list_elem_of_singleton in Hin as [= -> -> ->].
      split; [lia|]. exists step, []. do 3 (split; [done|]).
      by intros ev []%elem_of_nil.
    + elem_of_cases Hin.
    + apply elem_of_app in Hin as [Hin|Hin]; [elem_of_cases Hin|].
      by destruct (compensations_only _ _ _ ltac:(eassumption) Hin) as (? & ? & ? & _).
    + elem_of_cases Hin.
  - intros s w step c1 ev1 c2 ev2 r Hstep Hbody IH i completed e Hin.
    assert (EvStepState i completed (Some e) ∈ ev2
            /\ forall ev, ev ∈ ev1 ->
                 event_index ev = currentStep s /\ is_compensate ev = false)
      as [Hin2 Hev1].
    { apply elem_of_app in Hin as [Hin|Hin];
        inversion Hbody; subst; try elem_of_cases Hin.
      all: split; [done|]; intros ev Hev; elem_of_cases Hev; by subst. }
    destruct (IH _ _ _ Hin2) as (Hle & step' & pre & Hstep' & -> & -> & Hpre).
    assert (currentStep s + 1 <= i /\ steps c1.1 = steps s) as [Hlt Hsteps].
    { inversion Hbody; subst; simpl in *; split; (lia || done). }
    split; [lia|]. exists step', (ev1 ++ pre).
    rewrite <- Hsteps. split; [by inversion Hbody; subst|].
    split; [done|]. split; [by rewrite app_assoc|].
    intros ev [Hev|Hev]%elem_of_app; [|by apply Hpre].
    destruct (Hev1 _ Hev) as [-> ->]. split; [lia|done].
Qed.

Lemma Execute_loop_write_fails fuel s w c' evs r i b e :
  0 <= currentStep s ->
  Execute_loop fuel (s, w) = (c', evs, r) ->
  EvSetStepState i b (Some e) ∈ evs ->
  exists step pre ferr,
    index (steps s) i = Some step
    /\ r = Returns (Some (errors_Wrapf e ("setting state for step " +:+ Name step)))
    /\ evs = pre ++ [EvForward i ferr; EvSetStepState i b (Some e)]
    /\ (b = true <-> ferr = None)
    /\ forall ev, ev ∈ evs -> is_compensate ev = false.
Proof.
  intros Hpos Hrun. revert i b e. revert fuel s w c' evs r Hpos Hrun.
  apply (Execute_loop_runs (fun c c' evs r =>
    forall i b e,
      EvSetStepState i b (Some e) ∈ evs ->
      exists step pre ferr,
        index (steps c.1) i = Some step
        /\ r = Returns (Some (errors_Wrapf e ("setting state for step " +:+ Name step)))
        /\ evs = pre ++ [EvForward i ferr; EvSetStepState i b (Some e)]
        /\ (b = true <-> ferr = None)
        /\ forall ev, ev ∈ evs -> is_compensate ev = false));
    simpl.
  - intros s w _ i b e Hin. by apply elem_of_nil in Hin.
  - intros s w _ i b e Hin. by apply elem_of_nil in Hin.
  - intros s w step c' evs err Hstep Hbody i b e Hin.
    inversion Hbody; subst.
    + elem_of_cases Hin.
    + elem_of_cases Hin. injection Hin as -> -> ->.
      exists step, [EvStepState (currentStep s) false None], (Some e0).
      do 3 (split; [done|]). split; [done|].
      intros ev Hev. elem_of_cases Hev; by subst.
    + apply elem_of_app in Hin as [Hin|Hin]; [elem_of_cases Hin|].
      by destruct (compensations_only _ _ _ ltac:(eassumption) Hin) as (? & ? & ? & _).
    + elem_of_cases Hin. injection Hin as -> -> ->.
      exists step, [EvStepState (currentStep s) false None], None.
      do 3 (split; [done|]). split; [done|].
      intros ev Hev. elem_of_cases Hev; by subst.
  - intros s w step c1 ev1 c2 ev2 r Hstep Hbody IH i b e Hin.
    assert (EvSetStepState i b (Some e) ∈ ev2
            /\ (forall ev, ev ∈ ev1 -> is_compensate ev = false)
            /\ steps c1.1 = steps s)
      as (Hin2 & Hev1 & Hsteps).
    { apply elem_of_app in Hin as [Hin|Hin];
        inversion Hbody; subst; try elem_of_cases Hin.
      all: split; [done|]; split; [|done].
      all: intros ev Hev; elem_of_cases Hev; by subst. }
    destruct (IH _ _ _ Hin2) as (step' & pre & ferr & Hstep' & -> & -> & Hb & Hpre).
    exists step', (ev1 ++ pre), ferr. rewrite <- Hsteps.
    do 2 (split; [done|]). split; [by rewrite app_assoc|]. split; [done|].
    intros ev [Hev|Hev]%elem_of_app; [by apply Hev1 | by apply Hpre].
Qed.

(** C6. State-write fatality.  Whenever a call of [SetStepState] returns
    an error during [Execute], for the record of a success ([b = true],
    after a forward action that returned nil) or of a failure ([b = false],
    after one that returned an error), that call is the last of the run:
    [Execute] returns that error wrapped in a message that names the step,
    and the run calls no compensating action. *)
Theorem Execute_state_write_fatal s w c' evs r i b e :
  Execute (s, w) = (c', evs, r) ->
  EvSetStepState i b (Some e) ∈ evs ->
  exists step pre ferr,
    index (steps s) i = Some step
    /\ r = Returns (Some (errors_Wrapf e ("setting state for step " +:+ Name step)))
    /\ evs = pre ++ [EvForward i ferr; EvSetStepState i b (Some e)]
    /\ (b = true <-> ferr = None)
    /\ forall j res, EvCompensate j res ∉ evs.
Proof.
  rewrite Execute_unfold. intros Hrun Hin.
  destruct (Execute_loop_write_fails _ (with_currentStep 0 s) _ _ _ _ _ _ _
              (Z.le_refl 0) Hrun Hin)
    as (step & pre & ferr & Hstep & Hr & Hevs & Hb & Hquiet).
  exists step, pre, ferr. do 4 (split; [done|]).
  intros j res Hcomp. by apply Hquiet in Hcomp.
Qed.

(** C7. State-read fatality.  If the query [StepState] for step [i]
    fails during [Execute], that call is the last of the run: [Execute]
    returns the error of the query wrapped in a message that names the
    step, so that the message of the result ends with that of the cause;
    the forward action of step [i] is not called, no call concerns a later
    step, and no compensating action is called. *)
Theorem Execute_state_read_fatal s w c' evs r i completed e :
  Execute (s, w) = (c', evs, r) ->
  EvStepState i completed (Some e) ∈ evs ->
  exists step pre err,
    index (steps s) i = Some step
    /\ r = Returns (Some err)
    /\ err = errors_Wrapf e ("retrieving state for step " +:+ Name step)
    /\ Error err = "retrieving state for step " +:+ Name step +:+ ": " +:+ Error e
    /\ Cause err = Cause e
    /\ evs = pre ++ [EvStepState i completed (Some e)]
    /\ (forall res, EvForward i res ∉ evs)
    /\ (forall ev, ev ∈ evs -> event_index ev <= i)
    /\ (forall j res, EvCompensate j res ∉ evs).
Proof.
  rewrite Execute_unfold. intros Hrun Hin.
  destruct (Execute_loop_query_fails _ (with_currentStep 0 s) _ _ _ _ _ _ _
              (Z.le_refl 0) Hrun Hin)
    as (_ & step & pre & Hstep & Hr & -> & Hpre).
  exists step, pre, (errors_Wrapf e ("retrieving state for step " +:+ Name step)).
  do 6 (split; [done|]). split; [|split].
  - intros res [Hev|Hev]%elem_of_app; [|elem_of_cases Hev].
    apply Hpre in Hev as [Hlt _]. simpl in Hlt. lia.
  - intros ev [Hev|Hev]%elem_of_app.
    + apply Hpre in Hev as [Hlt _]. lia.
    + elem_of_cases Hev. subst. simpl. lia.
  - intros j res [Hev|Hev]%elem_of_app; [|elem_of_cases Hev].
    by apply Hpre in Hev as [_ Hcomp].
Qed.

End ExecuteFatalities.

(** ** Properties of [Execute] with a store that keeps its records *)

Section RecordingStoreFacts.
Context {S : Type} `{RecordingStore S}.

Lemma StepState_eq (m sm : S) (i : Z) (b : bool) (err : error) :
  StepState m i = (sm, (b, err)) ->
  records sm = records m /\ (err = None -> b = default false (records m !! i)).
Proof.
  intros Hq. pose proof (StepState_records m i) as Hrec.
  pose proof (StepState_reports m i) as Hrep. rewrite Hq in Hrec, Hrep.
  simpl in *. split; [done|]. intros ->. by apply Hrep.
Qed.

Lemma SetStepState_eq (m sm : S) (i : Z) (b : bool) (err : error) :
  SetStepState m i b = (sm, err) ->
  err = None /\ records sm = <[i := b]> (records m).
Proof.
  intros Hw. pose proof (SetStepState_succeeds m i b) as Hok.
  pose proof (SetStepState_records m i b) as Hrec. by rewrite Hw in Hok, Hrec.
Qed.

End RecordingStoreFacts.

(** What the calls of a pass say about the records, under the contract. *)
Ltac store_facts :=
  repeat match goal with
  | Hq : StepState _ _ = (_, (_, None)) |- _ =>
      let Hrep := fresh "Hreport" in
      apply StepState_eq in Hq as [? Hrep]; specialize (Hrep eq_refl)
  | Hq : StepState _ _ = (_, (_, Some _)) |- _ =>
      apply StepState_eq in Hq as [? _]
  | Hw : SetStepState _ _ _ = (_, _) |- _ =>
      apply SetStepState_eq in Hw as [? ?]
  end.

Ltac rewrite_records :=
  repeat match goal with
  | Hr : records _ = _ |- _ => rewrite Hr
  end.

Section ExecuteRecords.
Context {W S : Type} `{RecordingStore S}.
Implicit Types (s : saga W S) (w : W).

(** The records of the steps before the current one say [true], at the
    head of the loop and when the loop is left. *)
Lemma Execute_loop_recorded fuel s w c' evs r :
  0 <= currentStep s ->
  Execute_loop fuel (s, w) = (c', evs, r) ->
  (forall j, 0 <= j < currentStep s -> records (stateManager s) !! j = Some true) ->
  forall j, 0 <= j < currentStep c'.1 -> records (stateManager c'.1) !! j = Some true.
Proof.
  intros Hpos Hrun. revert fuel s w c' evs r Hpos Hrun.
  apply (Execute_loop_runs (fun c c' evs r =>
    (forall j, 0 <= j < currentStep c.1 -> records (stateManager c.1) !! j = Some true) ->
    forall j, 0 <= j < currentStep c'.1 ->
              records (stateManager c'.1) !! j = Some true)); simpl.
  - done.
  - done.
  - intros s w step c' evs err Hstep Hbody Hinv j Hj.
    inversion Hbody; subst; simpl in *; store_facts; simplify_eq;
      rewrite_records; rewrite ?lookup_insert_ne by lia; by apply Hinv.
  - intros s w step c1 ev1 c2 ev2 r Hstep Hbody IH Hinv.
    apply IH. intros j Hj.
    destruct (decide (j = currentStep s)) as [->|Hne].
    + inversion Hbody; subst; simpl in *; store_facts; simplify_eq;
        rewrite_records.
      * by destruct (records (stateManager s) !! currentStep s) as [[]|].
      * by rewrite lookup_insert_eq.
    + inversion Hbody; subst; simpl in *; store_facts; simplify_eq;
        rewrite_records; rewrite ?lookup_insert_ne by done; apply Hinv; lia.
Qed.

(** A forward action that fails ends the run at its step: the failure is
    recorded at once, and only then come the compensating actions, from
    that step down to step 0. *)
Lemma Execute_loop_forward_fails fuel s w c' evs r k e :
  0 <= currentStep s ->
  Execute_loop fuel (s, w) = (c', evs, r) ->
  EvForward k (Some e) ∈ evs ->
  currentStep s <= k
  /\ currentStep c'.1 = k
  /\ records (stateManager c'.1) !! k = Some false
  /\ (exists err, r = Returns (Some err))
  /\ exists pre comps,
       evs = pre ++ [EvForward k (Some e); EvSetStepState k false None] ++ comps
       /\ (forall ev, ev ∈ pre -> is_compensate ev = false)
       /\ call_of <$> comps = CallCompensate <$> countdown k.
Proof.
  intros Hpos Hrun. revert k e. revert fuel s w c' evs r Hpos Hrun.
  apply (Execute_loop_runs (fun c c' evs r =>
    forall k e,
      EvForward k (Some e) ∈ evs ->
      currentStep c.1 <= k
      /\ currentStep c'.1 = k
      /\ records (stateManager c'.1) !! k = Some false
      /\ (exists err, r = Returns (Some err))
      /\ exists pre comps,
           evs = pre ++ [EvForward k (Some e); EvSetStepState k false None] ++ comps
           /\ (forall ev, ev ∈ pre -> is_compensate ev = false)
           /\ call_of <$> comps = CallCompensate <$> countdown k)); simpl.
  - intros s w _ k e Hin. by apply elem_of_nil in Hin.
  - intros s w _ k e Hin. by apply elem_of_nil in Hin.
  - intros s w step c' evs err Hstep Hbody k e Hin.
    inversion Hbody; subst; simpl.
    + elem_of_cases Hin.
    + store_facts. discriminate.
    + apply elem_of_app in Hin as [Hin|Hin].
      * elem_of_cases Hin. injection Hin as -> ->.
        store_facts. rewrite_records. rewrite lookup_insert_eq.
        do 3 (split; [done|]). split; [by eexists|].
        exists [EvStepState (currentStep s) false None], comps.
        split; [done|]. split; [|done].
        intros ev Hev. elem_of_cases Hev. by subst.
      * by destruct (compensations_only _ _ _ ltac:(eassumption) Hin)
          as (? & ? & ? & _).
    + elem_of_cases Hin.
  - intros s w step c1 ev1 c2 ev2 r Hstep Hbody IH k e Hin.
    assert (EvForward k (Some e) ∈ ev2
            /\ (forall ev, ev ∈ ev1 -> is_compensate ev = false)
            /\ currentStep c1.1 = currentStep s)
      as (Hin2 & Hev1 & Hcur).
    { apply elem_of_app in Hin as [Hin|Hin];
        inversion Hbody; subst; try elem_of_cases Hin.
      all: split; [done|]; split; [|done].
      all: intros ev Hev; elem_of_cases Hev; by subst. }
    destruct (IH _ _ Hin2) as (Hle & Hk & Hrec & Herr & pre & comps & -> & Hpre & Hcalls).
    split; [lia|]. do 3 (split; [done|]).
    exists (ev1 ++ pre), comps. split; [by rewrite <- app_assoc|]. split; [|done].
    intros ev [Hev|Hev]%elem_of_app; [by apply Hev1 | by apply Hpre].
Qed.

Lemma Execute_upto_unfold n s w :
  Execute_upto n (s, w) = Execute_loop n (with_currentStep 0 s, w).
Proof.
  unfold Execute_upto, bind, set_currentStep.
  by destruct (Execute_loop _ _) as [[c ev] r].
Qed.

Lemma Execute_is_upto s w :
  Execute (s, w) = Execute_upto (length (steps s)) (s, w).
Proof. by rewrite Execute_unfold, Execute_upto_unfold. Qed.

(** C4. The state-record invariant, with a store whose writes succeed.
    [Execute] is the run that the bound [len(steps)] on the passes of the
    loop never cuts.  Watched at the head of the loop after any number of
    passes, or once it has returned, the run has the record of every step
    before the current one equal to [true].  And when the forward action of
    a step [k] fails, the next call records [false] for [k], the calls
    before it are no compensating actions, those after it are the
    compensating actions, and the record of [k] is [false] from then on. *)
Theorem Execute_state_record_invariant s w n c' evs r :
  Execute_upto n (s, w) = (c', evs, r) ->
  Execute (s, w) = Execute_upto (length (steps s)) (s, w)
  /\ (forall i, 0 <= i < currentStep c'.1 ->
        records (stateManager c'.1) !! i = Some true)
  /\ (forall k e,
        EvForward k (Some e) ∈ evs ->
        currentStep c'.1 = k
        /\ records (stateManager c'.1) !! k = Some false
        /\ exists pre comps,
             evs = pre ++ [EvForward k (Some e); EvSetStepState k false None] ++ comps
             /\ (forall ev, ev ∈ pre -> is_compensate ev = false)
             /\ (forall ev, ev ∈ comps -> is_compensate ev = true)).
Proof.
  rewrite Execute_upto_unfold. intros Hrun.
  split; [apply Execute_is_upto|]. split.
  - eapply Execute_loop_recorded; [|done|]; simpl; [done|lia].
  - intros k e Hin.
    destruct (Execute_loop_forward_fails _ (with_currentStep 0 s) _ _ _ _ _ _
                (Z.le_refl 0) Hrun Hin)
      as (_ & Hk & Hrec & _ & pre & comps & Hevs & Hpre & Hcalls).
    do 2 (split; [done|]). exists pre, comps. do 2 (split; [done|]).
    intros ev Hev.
    by destruct (compensations_only _ _ _ Hcalls Hev) as (j & res & -> & _).
Qed.

(** While the records say [true], the loop skips: it calls no forward
    action of a step below [k] when the records of the steps from the
    current one up to [k] are all [true]. *)
Lemma Execute_loop_skips fuel s w c' evs r k :
  0 <= currentStep s ->
  Execute_loop fuel (s, w) = (c', evs, r) ->
  (forall j, currentStep s <= j < k -> records (stateManager s) !! j = Some true) ->
  forall i res, i < k -> EvForward i res ∉ evs.
Proof.
  intros Hpos Hrun. revert fuel s w c' evs r Hpos Hrun.
  apply (Execute_loop_runs (fun c c' evs r =>
    (forall j, currentStep c.1 <= j < k ->
               records (stateManager c.1) !! j = Some true) ->
    forall i res, i < k -> EvForward i res ∉ evs)); simpl.
  - intros s w _ _ i res _ Hin. by apply elem_of_nil in Hin.
  - intros s w _ _ i res _ Hin. by apply elem_of_nil in Hin.
  - intros s w step c' evs err Hstep Hbody Hrec i res Hi Hin.
    inversion Hbody; subst; store_facts; try discriminate.
    + elem_of_cases Hin.
    + apply elem_of_app in Hin as [Hin|Hin].
      * elem_of_cases Hin. injection Hin as -> _.
        rewrite Hrec in Hreport by lia. done.
      * by destruct (compensations_only _ _ _ ltac:(eassumption) Hin)
          as (? & ? & ? & _).
  - intros s w step c1 ev1 c2 ev2 r Hstep Hbody IH Hrec i res Hi Hin.
    apply elem_of_app in Hin as [Hin|Hin];
      inversion Hbody; subst; simpl in *; store_facts; try discriminate.
    + elem_of_cases Hin.
    + elem_of_cases Hin. injection Hin as -> _.
      rewrite Hrec in Hreport by lia. done.
    + revert Hin. apply IH; [|done]. intros j Hj.
      rewrite_records. apply Hrec. lia.
    + revert Hin. apply IH; [|done]. intros j Hj.
      destruct (Z.le_gt_cases k (currentStep s)) as [|Hlt]; [lia|].
      rewrite Hrec in Hreport by lia. done.
Qed.

(** C3. Retry skips completed steps.  Take a run of [Execute] in which
    the forward action of step [k] failed, so that the steps before [k]
    had succeeded, in that run or in an earlier one; the store keeps its
    records.  A second call of [Execute] on the saga, from any world,
    returns and calls the forward action of no step below [k]. *)
Theorem Execute_retry_skips_completed s w c1 evs1 r1 k e w2 c2 evs2 r2 :
  Execute (s, w) = (c1, evs1, r1) ->
  EvForward k (Some e) ∈ evs1 ->
  Execute (c1.1, w2) = (c2, evs2, r2) ->
  (exists err, r2 = Returns err)
  /\ forall i res, i < k -> EvForward i res ∉ evs2.
Proof.
  intros Hrun1 Hfail Hrun2. split.
  { destruct (Execute_returns c1.1 w2) as (c & evs & err & Hret).
    rewrite Hrun2 in Hret. injection Hret as _ _ ->. by exists err. }
  rewrite Execute_unfold in Hrun1, Hrun2.
  destruct (Execute_loop_forward_fails _ (with_currentStep 0 s) _ _ _ _ _ _
              (Z.le_refl 0) Hrun1 Hfail) as (_ & Hk & _).
  pose proof (Execute_loop_recorded _ (with_currentStep 0 s) _ _ _ _
                (Z.le_refl 0) Hrun1) as Hrec.
  simpl in Hrec. rewrite Hk in Hrec.
  eapply (Execute_loop_skips _ (with_currentStep 0 c1.1)); [|done|]; simpl; [done|].
  intros j Hj. apply Hrec; lia.
Qed.

End ExecuteRecords.

(** ** Properties of [Execute] with a store all of whose operations succeed *)

Lemma index_drop {A} (l : list A) (i : Z) (x : A) :
  index l i = Some x ->
  drop (Z.to_nat i) l = x :: drop (Z.to_nat (i + 1)) l.
Proof.
  intros Hx. pose proof (index_Some_range _ _ _ Hx) as Hrange.
  unfold index in Hx. destruct (Z.leb_spec 0 i); [|lia].
  replace (Z.to_nat (i + 1)) with (Datatypes.S (Z.to_nat i)) by lia.
  by apply drop_S.
Qed.


Section ExecuteReliable.
Context {W S : Type} `{ReliableStore S}.
Implicit Types (s : saga W S) (w : W).

(** With no record that says [true] from the current step on, a run in
    which a forward action fails at step [k] makes these calls: a full pass
    over each step before [k]; at [k] the query, the action and the record
    of the failure; then the compensating actions from [k] down to 0. *)
Lemma Execute_loop_failure_calls fuel s w c' evs r k e :
  0 <= currentStep s ->
  Execute_loop fuel (s, w) = (c', evs, r) ->
  (forall j, currentStep s <= j -> records (stateManager s) !! j <> Some true) ->
  EvForward k (Some e) ∈ evs ->
  currentStep s <= k
  /\ exists comps,
      evs = (seqZ (currentStep s) (k - currentStep s) ≫= completed_pass)
            ++ [EvStepState k false None; EvForward k (Some e);
                EvSetStepState k false None] ++ comps
      /\ call_of <$> comps = CallCompensate <$> countdown k.
Proof.
  intros Hpos Hrun. revert fuel s w c' evs r Hpos Hrun.
  apply (Execute_loop_runs (fun c c' evs r =>
    (forall j, currentStep c.1 <= j -> records (stateManager c.1) !! j <> Some true) ->
    EvForward k (Some e) ∈ evs ->
    currentStep c.1 <= k
    /\ exists comps,
        evs = (seqZ (currentStep c.1) (k - currentStep c.1) ≫= completed_pass)
              ++ [EvStepState k false None; EvForward k (Some e);
                  EvSetStepState k false None] ++ comps
        /\ call_of <$> comps = CallCompensate <$> countdown k)); simpl.
  - intros s w _ _ Hin. by apply elem_of_nil in Hin.
  - intros s w _ _ Hin. by apply elem_of_nil in Hin.
  - intros s w step c' evs err Hstep Hbody Hrec Hin.
    inversion Hbody; subst; store_facts; try discriminate.
    + elem_of_cases Hin.
    + apply elem_of_app in Hin as [Hin|Hin].
      * elem_of_cases Hin. injection Hin as -> ->.
        split; [lia|]. exists comps. rewrite Z.sub_diag. by split.
      * by destruct (compensations_only _ _ _ ltac:(eassumption) Hin)
          as (? & ? & ? & _).
  - intros s w step c1 ev1 c2 ev2 r Hstep Hbody IH Hrec Hin.
    inversion Hbody; subst; simpl in *; store_facts; try discriminate.
    + exfalso. apply (Hrec (currentStep s)); [lia|].
      by destruct (records (stateManager s) !! currentStep s) as [[]|].
    + elem_of_cases Hin.
      destruct IH as (Hle & comps & -> & Hcalls); [|done|].
      { intros j Hj. rewrite_records. rewrite lookup_insert_ne by lia.
        apply Hrec. lia. }
      split; [lia|]. exists comps. split; [|done].
      rewrite (seqZ_cons (currentStep s)) by lia. rewrite bind_cons.
      replace (Z.succ (currentStep s)) with (currentStep s + 1) by lia.
      replace (Z.pred (k - currentStep s)) with (k - (currentStep s + 1)) by lia.
      done.
Qed.

(** The run reaches the first forward action that fails. *)
Lemma Execute_loop_reaches_failure fuel s w c' evs r k e :
  0 <= currentStep s ->
  Execute_loop fuel (s, w) = (c', evs, r) ->
  r <> OutOfFuel ->
  (forall j, currentStep s <= j -> records (stateManager s) !! j <> Some true) ->
  first_to_fail (drop (Z.to_nat (currentStep s)) (steps s)) (currentStep s) w
    = Some (k, e) ->
  EvForward k (Some e) ∈ evs.
Proof.
  intros Hpos Hrun. revert fuel s w c' evs r Hpos Hrun.
  apply (Execute_loop_runs (fun c c' evs r =>
    r <> OutOfFuel ->
    (forall j, currentStep c.1 <= j -> records (stateManager c.1) !! j <> Some true) ->
    first_to_fail (drop (Z.to_nat (currentStep c.1)) (steps c.1)) (currentStep c.1) c.2
      = Some (k, e) ->
    EvForward k (Some e) ∈ evs)); simpl.
  - intros s w Hend _ _ Hfirst. rewrite drop_ge in Hfirst; [done|].
    unfold len in Hend. lia.
  - done.
  - intros s w step c' evs err Hstep Hbody _ Hrec Hfirst.
    rewrite (index_drop _ _ _ Hstep) in Hfirst. simpl in Hfirst.
    inversion Hbody; subst; try (store_facts; discriminate).
    + pose proof (StepState_succeeds (stateManager s) (currentStep s)) as Hok.
      match goal with Hq : StepState _ _ = _ |- _ => by rewrite Hq in Hok end.
    + match goal with Hf : ExecuteForward _ _ = _ |- _ => rewrite Hf in Hfirst end.
      injection Hfirst as <- <-.
      apply elem_of_app. left. apply elem_of_cons. right. apply elem_of_cons. by left.
  - intros s w step c1 ev1 c2 ev2 r Hstep Hbody IH Hfuel Hrec Hfirst.
    rewrite (index_drop _ _ _ Hstep) in Hfirst. simpl in Hfirst.
    apply elem_of_app. right.
    inversion Hbody; subst; simpl in *.
    + store_facts. exfalso. apply (Hrec (currentStep s)); [lia|].
      by destruct (records (stateManager s) !! currentStep s) as [[]|].
    + match goal with Hf : ExecuteForward _ _ = _ |- _ => rewrite Hf in Hfirst end.
      apply IH; [done| |done].
      intros j Hj. store_facts. rewrite_records. rewrite lookup_insert_ne by lia.
      apply Hrec. lia.
Qed.

(** C1. Compensation scope.  The store holds no record and its
    operations succeed; called one after the other, the forward actions
    fail first at step [k].  Then [Execute] returns an error, after these
    calls and no other: a full pass over each of the steps [0 .. k-1], the
    query and the forward action of step [k], the record of its failure,
    and the compensating actions of the steps [k, k-1, ..., 0] in that
    order, that of the failing step [k] first.  No call concerns a step
    after [k]. *)
Theorem Execute_compensation_scope s w k e :
  records (stateManager s) = ∅ ->
  first_to_fail (steps s) 0 w = Some (k, e) ->
  exists c' evs err comps,
    Execute (s, w) = (c', evs, Returns (Some err))
    /\ evs = (seqZ 0 k ≫= completed_pass)
             ++ [EvStepState k false None; EvForward k (Some e);
                 EvSetStepState k false None] ++ comps
    /\ call_of <$> comps = CallCompensate <$> countdown k
    /\ (forall j, (exists res, EvCompensate j res ∈ evs) <-> 0 <= j <= k)
    /\ (forall ev, ev ∈ evs -> event_index ev <= k).
Proof.
  intros Hfresh Hfirst.
  destruct (Execute_returns s w) as (c' & evs & err & Hrun).
  exists c', evs. rewrite Hrun. rewrite Execute_unfold in Hrun.
  assert (forall j, 0 <= j -> records (stateManager s) !! j <> Some true) as Hrec.
  { intros j _. by rewrite Hfresh, lookup_empty. }
  assert (EvForward k (Some e) ∈ evs) as Hin.
  { by eapply (Execute_loop_reaches_failure _ (with_currentStep 0 s)). }
  destruct (Execute_loop_failure_calls _ (with_currentStep 0 s) _ _ _ _ _ _
              (Z.le_refl 0) Hrun Hrec Hin) as (Hk & comps & Hevs & Hcalls).
  destruct (Execute_loop_forward_fails _ (with_currentStep 0 s) _ _ _ _ _ _
              (Z.le_refl 0) Hrun Hin) as (_ & _ & _ & [err' ->] & _).
  simpl in Hevs, Hk. rewrite Z.sub_0_r in Hevs.
  exists err', comps. do 3 (split; [done|]).
  assert (forall ev, ev ∈ seqZ 0 k ≫= completed_pass ->
                     0 <= event_index ev < k /\ is_compensate ev = false) as Hpasses.
  { intros ev (j & Hev & Hj)%list_elem_of_bind. apply elem_of_seqZ in Hj.
    elem_of_cases Hev; subst; simpl; split; (lia || done). }
  subst evs. split.
  - intros j. split.
    + intros [res [Hev|Hev]%elem_of_app].
      * by apply Hpasses in Hev as [_ Hev].
      * elem_of_cases Hev.
        destruct (compensations_only _ _ _ Hcalls Hev) as (j' & res' & [= -> ->] & Hj).
        by apply elem_of_countdown.
    + intros Hj%elem_of_countdown.
      apply (list_elem_of_fmap_2 CallCompensate) in Hj. rewrite <- Hcalls in Hj.
      apply list_elem_of_fmap in Hj as (ev & Hcall & Hev).
      destruct ev as [| | |j' res]; simplify_eq/=. exists res.
      apply elem_of_app. right. do 3 (apply elem_of_cons; right). done.
  - intros ev [Hev|Hev]%elem_of_app.
    + apply Hpasses in Hev. lia.
    + elem_of_cases Hev; subst; simpl; try lia.
      destruct (compensations_only _ _ _ Hcalls Hev) as (j' & res' & -> & Hj).
      apply elem_of_countdown in Hj. simpl. lia.
Qed.



End ExecuteReliable.

(** ** The error messages of the two-step scenario *)

(** Settles a pass over a step whose calls are known: only the case that
    agrees with what the calls return is left. *)
Ltac resolve_pass :=
  repeat match goal with
  | Hq : InMemory_StepState _ _ = _ |- _ => vm_compute in Hq; simplify_eq
  | Hw : InMemory_SetStepState _ _ _ = _ |- _ =>
      unfold InMemory_SetStepState in Hw; simplify_eq
  | Hf : ExecuteForward ?st ?w0 = _, Hf' : ExecuteForward ?st ?w0 = _ |- _ =>
      rewrite Hf' in Hf; simplify_eq
  end.

Section ErrorMessages.
Context {W : Type}.

(** C8. The exact error messages.  In a saga of two steps on a new
    in-memory store, the first forward action succeeds and the second, of
    the step named "step2", fails with the message "step2 error"; the
    compensating action of the first step succeeds.  Then [Execute] returns
    an error.  If the compensating action of the second step succeeds too,
    its message is "executing step step2: step2 error".  If that action
    fails with the message "step2 compensate error", the error wraps the
    aggregate "compensation failed with errors: [step2 compensate error]"
    in the message "compensating after failure in step step2: step2
    error", and prints the two joined by a colon. *)
Theorem Execute_error_messages (first second : Step W) (w w1 w2 w3 w4 : W)
    (e2 : goerror) (c2 : error) :
  Name second = "step2" ->
  ExecuteForward first w = (w1, None) ->
  ExecuteForward second w1 = (w2, Some e2) ->
  Error e2 = "step2 error" ->
  ExecuteCompensate second w2 = (w3, c2) ->
  ExecuteCompensate first w3 = (w4, None) ->
  exists c' evs err,
    Execute (AddStep second (AddStep first New), w) = (c', evs, Returns (Some err))
    /\ (c2 = None -> Error err = "executing step step2: step2 error")
    /\ (forall ec, c2 = Some ec -> Error ec = "step2 compensate error" ->
          err = errors_Wrapf
                  (fundamental "compensation failed with errors: [step2 compensate error]")
                  "compensating after failure in step step2: step2 error"
          /\ Error err = "compensating after failure in step step2: step2 error: compensation failed with errors: [step2 compensate error]").
Proof.
  intros Hname Hf1 Hf2 He2 Hc2 Hc1.
  rewrite Execute_unfold. simpl length.
  rewrite Execute_loop_pass by (simpl; unfold len; simpl; lia).
  destruct (Execute_body _) as [[c1 ev1] r1] eqn:Hbody.
  apply (Execute_body_run _ _ first) in Hbody; [|done].
  inversion Hbody; subst; clear Hbody; simpl in * |-; resolve_pass.
  unfold advance. cbn [fst snd].
  rewrite Execute_loop_pass by (simpl; unfold len; simpl; lia).
  destruct (Execute_body _) as [[c1 ev1] r1] eqn:Hbody.
  apply (Execute_body_run _ _ second) in Hbody; [|done].
  inversion Hbody; subst; clear Hbody; simpl in * |-; resolve_pass.
  eexists _, _, _. split; [reflexivity|].
  match goal with
  | H : Compensate (?s2, _) = _ |- _ =>
      set (sg := s2) in *;
      assert (currentStep sg = 1) as Hcur by done;
      assert (steps sg = [first; second]) as Hsteps by done;
      clearbody sg; rename H into Hcomp
  end.
  rewrite Compensate_unfold, Hcur in Hcomp.
  change (Z.to_nat (1 + 1)) with 2%nat in Hcomp.
  rewrite (Compensate_loop_pass _ _ _ _ _ second) in Hcomp by by rewrite Hsteps.
  rewrite Hc2 in Hcomp. change (1 - 1) with 0 in Hcomp.
  rewrite (Compensate_loop_pass _ _ _ _ _ first) in Hcomp by by rewrite Hsteps.
  rewrite Hc1, Compensate_loop_exit in Hcomp by lia.
  injection Hcomp as _ <- _. unfold Name in *. rewrite Hname. split.
  - intros ->. simpl. by rewrite He2.
  - intros ec -> Hec. simpl. unfold fmt_errors. simpl. by rewrite He2, Hec.
Qed.

End ErrorMessages.

(** ** The in-memory store *)

(** C9. Round trip of the in-memory store.  A query for an index that has
    no record answers [false] without error, as every query of a new store
    does; a write returns no error and leaves the map with the written value
    at its index, whatever was there, and the records of the other indices as
    they were; the query that follows a write answers the written value; and
    no query returns an error. *)
Theorem InMemory_round_trip (m : InMemoryStateManager) (i : Z) (b : bool) :
  (state m !! i = None -> StepState m i = (m, (false, None)))
  /\ StepState NewInMemoryStateManager i = (NewInMemoryStateManager, (false, None))
  /\ (SetStepState m i b).2 = None
  /\ state (SetStepState m i b).1 !! i = Some b
  /\ (forall j, j <> i -> state (SetStepState m i b).1 !! j = state m !! j)
  /\ StepState (SetStepState m i b).1 i = ((SetStepState m i b).1, (b, None))
  /\ (StepState m i).2.2 = None.
Proof.
  simpl. unfold InMemory_StepState, InMemory_SetStepState. simpl. repeat split.
  - by intros ->.
  - apply lookup_insert_eq.
  - intros j Hj. by apply lookup_insert_ne.
  - by rewrite lookup_insert_eq.
  - by destruct (state m !! i).
Qed.

(** ** The properties at the sagas of saga_test.go *)

(** The contract of a store is more than the success of its operations.
    The mock of saga_test.go with no error set answers every call without
    error and keeps no record: [Execute] returns nil on it, and it still
    answers [false] for step 0. *)
Example mock_keeps_no_record :
  let mock := {| setStepStateErr := None; stepState := false; stepStateErr := None |} in
  exists c' evs,
    Execute (AddStep step2 (AddStep step1 (WithStateManager mock New)), 0)
      = (c', evs, Returns None)
    /\ (StepState (stateManager c'.1) 0).2 = (false, None).
Proof. by eexists _, _. Qed.

Lemma Execute_compensation_scope_witness :
  records (stateManager (AddStep step2_failing (AddStep step1 New))) = ∅
  /\ first_to_fail (steps (AddStep step2_failing (AddStep step1 New))) 0 0
     = Some (1, errors_New "step2 error")
  /\ exists c' evs err comps,
       Execute (AddStep step2_failing (AddStep step1 New), 0)
         = (c', evs, Returns (Some err))
       /\ evs = (seqZ 0 1 ≫= completed_pass)
                ++ [EvStepState 1 false None;
                    EvForward 1 (Some (errors_New "step2 error"));
                    EvSetStepState 1 false None] ++ comps
       /\ call_of <$> comps = CallCompensate <$> countdown 1.
Proof.
  split; [reflexivity|]. split; [reflexivity|].
  pose proof (Execute_compensation_scope
                (AddStep step2_failing (AddStep step1 New)) 0 1
                (errors_New "step2 error")) as Hscope.
  destruct Hscope as (c' & evs & err & comps & Hrun & Hevs & Hcalls & _);
    [reflexivity | reflexivity |].
  by exists c', evs, err, comps.
Defined.


Lemma Execute_retry_skips_completed_witness :
  exists c1 evs1 r1 c2 evs2 r2,
    Execute (AddStep step2_failing (AddStep step1 New), 0) = (c1, evs1, r1)
    /\ EvForward 1 (Some (errors_New "step2 error")) ∈ evs1
    /\ Execute (c1.1, 5) = (c2, evs2, r2)
    /\ (exists err, r2 = Returns err)
    /\ forall i res, i < 1 -> EvForward i res ∉ evs2.
Proof.
  eexists _, _, _, _, _, _.
  split; [vm_compute; reflexivity|].
  split; [do 4 (apply elem_of_cons; right); apply elem_of_cons; by left|].
  split; [vm_compute; reflexivity|].
  eapply (Execute_retry_skips_completed
            (AddStep step2_failing (AddStep step1 New)) 0 _ _ _ 1
            (errors_New "step2 error") 5).
  - vm_compute; reflexivity.
  - do 4 (apply elem_of_cons; right). apply elem_of_cons. by left.
  - vm_compute; reflexivity.
Defined.

Lemma Execute_state_record_invariant_witness :
  exists c' evs r,
    Execute_upto 2 (AddStep step2_failing (AddStep step1 New), 0) = (c', evs, r)
    /\ (forall i, 0 <= i < currentStep c'.1 ->
          records (stateManager c'.1) !! i = Some true)
    /\ currentStep c'.1 = 1
    /\ records (stateManager c'.1) !! 1 = Some false.
Proof.
  eexists _, _, _. split; [vm_compute; reflexivity|].
  pose proof (Execute_state_record_invariant
                (AddStep step2_failing (AddStep step1 New)) 0 2) as Hinv.
  edestruct Hinv as (_ & Hrec & Hfail); [vm_compute; reflexivity|].
  split; [exact Hrec|].
  destruct (Hfail 1 (errors_New "step2 error")) as (Hcur & Hfalse & _).
  - do 4 (apply elem_of_cons; right). apply elem_of_cons. by left.
  - by split.
Defined.

Lemma Compensate_best_effort_witness :
  exists c' evs r,
    Compensate (with_currentStep 1 (AddStep step2_failing_twice (AddStep step1 New)), 0)
      = (c', evs, r)
    /\ EvCompensate 1 (Some (errors_New "step2 compensate error")) ∈ evs
    /\ call_of <$> evs = CallCompensate <$> countdown 1
    /\ r = Returns (Some (fundamental
             ("compensation failed with errors: " +:+ fmt_errors (failures evs)))).
Proof.
  eexists _, _, _. split; [vm_compute; reflexivity|].
  split; [apply elem_of_cons; by left|].
  pose proof (Compensate_best_effort
                (with_currentStep 1 (AddStep step2_failing_twice (AddStep step1 New)))
                0) as Hbest.
  edestruct Hbest as (Hcalls & _ & Hr & _).
  - vm_compute; reflexivity.
  - apply elem_of_cons. by left.
  - by split.
Defined.

Lemma Execute_state_write_fatal_witness :
  exists c' evs r step pre ferr,
    Execute (AddStep step2 (AddStep step1 (WithStateManager mock_write_fails New)), 0)
      = (c', evs, r)
    /\ EvSetStepState 0 true (Some (errors_New "set step state error")) ∈ evs
    /\ index [step1; step2] 0 = Some step
    /\ r = Returns (Some (errors_Wrapf (errors_New "set step state error")
                            ("setting state for step " +:+ Name step)))
    /\ evs = pre ++ [EvForward 0 ferr;
                     EvSetStepState 0 true (Some (errors_New "set step state error"))]
    /\ forall j res, EvCompensate j res ∉ evs.
Proof.
  pose proof (Execute_state_write_fatal
                (AddStep step2 (AddStep step1 (WithStateManager mock_write_fails New)))
                0) as Hfatal.
  edestruct Hfatal as (step & pre & ferr & Hstep & Hr & Hevs & _ & Hquiet).
  - vm_compute; reflexivity.
  - do 2 (apply elem_of_cons; right). apply elem_of_cons. by left.
  - eexists _, _, _, step, pre, ferr. split; [vm_compute; reflexivity|].
    split; [do 2 (apply elem_of_cons; right); apply elem_of_cons; by left|].
    by do 3 (split; [done|]).
Defined.

Lemma Execute_state_read_fatal_witness :
  exists c' evs r step pre err,
    Execute (AddStep step2 (AddStep step1 (WithStateManager mock_query_fails New)), 0)
      = (c', evs, r)
    /\ EvStepState 0 false (Some (errors_New "step state error")) ∈ evs
    /\ index [step1; step2] 0 = Some step
    /\ r = Returns (Some err)
    /\ Error err = "retrieving state for step " +:+ Name step +:+ ": "
                     +:+ "step state error"
    /\ evs = pre ++ [EvStepState 0 false (Some (errors_New "step state error"))]
    /\ (forall res, EvForward 0 res ∉ evs)
    /\ forall j res, EvCompensate j res ∉ evs.
Proof.
  pose proof (Execute_state_read_fatal
                (AddStep step2 (AddStep step1 (WithStateManager mock_query_fails New)))
                0) as Hfatal.
  edestruct Hfatal
    as (step & pre & err & Hstep & Hr & _ & Herr & _ & Hevs & Hfwd & _ & Hquiet).
  - vm_compute; reflexivity.
  - apply elem_of_cons. by left.
  - eexists _, _, _, step, pre, err. split; [vm_compute; reflexivity|].
    split; [apply elem_of_cons; by left|].
    by do 5 (split; [done|]).
Defined.

Lemma Execute_error_messages_witness :
  exists c' evs err,
    Execute (AddStep step2_failing_twice (AddStep step1 New), 0)
      = (c', evs, Returns (Some err))
    /\ Error err = "compensating after failure in step step2: step2 error: compensation failed with errors: [step2 compensate error]".
Proof.
  destruct (Execute_error_messages step1 step2_failing_twice 0 1 1 1 0
              (errors_New "step2 error") (Some (errors_New "step2 compensate error"))
              eq_refl eq_refl eq_refl eq_refl eq_refl eq_refl)
    as (c' & evs & err & Hrun & _ & Hchain).
  exists c', evs, err. split; [done|].
  by destruct (Hchain (errors_New "step2 compensate error") eq_refl eq_refl).
Defined.

Lemma InMemory_round_trip_witness :
  state NewInMemoryStateManager !! 0 = None
  /\ StepState NewInMemoryStateManager 0 = (NewInMemoryStateManager, (false, None))
  /\ (StepState (SetStepState NewInMemoryStateManager 0 true).1 0).2 = (true, None).
Proof.
  destruct (InMemory_round_trip NewInMemoryStateManager 0 true)
    as (Hunset & _ & _ & _ & _ & Hget & _).
  split; [reflexivity|]. split; [by apply Hunset|]. by rewrite Hget.
Defined.

Lemma Compensate_index_out_of_range_witness :
  exists c' evs,
    Execute (AddStep step2 (AddStep step1 New), 0) = (c', evs, Returns None)
    /\ currentStep c'.1 = len (steps c'.1)
    /\ Compensate c' = (c', [], Panics)
    /\ Compensate (New (W:=Z), 0) = ((New, 0), [], Panics).
Proof.
  pose proof (Compensate_index_out_of_range
                (AddStep step2 (AddStep step1 New)) 0) as (_ & _ & Hnew & Hafter).
  eexists _, _. split; [vm_compute; reflexivity|].
  edestruct Hafter as [Hcur Hpanic]; [vm_compute; reflexivity|].
  split; [exact Hcur|]. split; [exact Hpanic|].
  exact (Hnew NewInMemoryStateManager).
Defined.

(** * Further properties of the engine *)

(** ** Building a saga *)

(** X19. [new] applies its options in order, so the state manager of the last
    [WithStateManager] is the one the saga has; with no option it is the
    in-memory one.  No such option adds a step or moves [currentStep]. *)
Theorem new_last_state_manager (W : Type) (sms : list AnyStateManager) :
  stateManager (new (W:=W) (WithStateManager <$> sms))
    = default (AnySM NewInMemoryStateManager) (last sms)
  /\ steps (new (W:=W) (WithStateManager <$> sms)) = []
  /\ currentStep (new (W:=W) (WithStateManager <$> sms)) = 0.
Proof.
  unfold new.
  generalize (AnySM NewInMemoryStateManager) as sm0.
  generalize (@nil (Step W)) as l. generalize 0 as i.
  induction sms as [|sm sms IH]; intros i l sm0; [done|].
  rewrite fmap_cons. cbn [foldl].
  change (WithStateManager sm {| steps := l; currentStep := i; stateManager := sm0 |})
    with {| steps := l; currentStep := i; stateManager := sm |}.
  destruct (IH i l sm) as (-> & -> & ->). split; [|done].
  rewrite last_cons. by destruct (last sms).
Qed.

(** X18. [AddStep] appends: the steps added one after the other to a saga come
    after the steps it had, in the order they were added, and neither the
    state manager nor [currentStep] changes. *)
Theorem AddStep_in_order {W S : Type} (s : saga W S) (l : list (Step W)) :
  steps (foldl (fun s step => AddStep step s) s l) = steps s ++ l
  /\ stateManager (foldl (fun s step => AddStep step s) s l) = stateManager s
  /\ currentStep (foldl (fun s step => AddStep step s) s l) = currentStep s.
Proof.
  revert s. induction l as [|step l IH]; intros s; simpl.
  - by rewrite app_nil_r.
  - destruct (IH (AddStep step s)) as (-> & -> & ->). simpl.
    by rewrite <- app_assoc.
Qed.

(** ** The in-memory store: how writes compose *)

(** X20. Of two writes at one index the later one stays, and writes at
    different indices can be swapped. *)
Theorem InMemory_writes_compose (m : InMemoryStateManager) (i j : Z) (a b : bool) :
  (SetStepState (SetStepState m i a).1 i b).1 = (SetStepState m i b).1
  /\ (i <> j ->
      (SetStepState (SetStepState m i a).1 j b).1
        = (SetStepState (SetStepState m j b).1 i a).1).
Proof.
  simpl. unfold InMemory_SetStepState. simpl. split.
  - by rewrite insert_insert_eq.
  - intros Hij. f_equal. by apply insert_insert_ne.
Qed.

Lemma InMemory_writes_compose_witness :
  (SetStepState (SetStepState NewInMemoryStateManager 0 true).1 1 false).1
    = (SetStepState (SetStepState NewInMemoryStateManager 1 false).1 0 true).1.
Proof.
  destruct (InMemory_writes_compose NewInMemoryStateManager 0 1 true false)
    as [_ Hswap].
  apply Hswap. lia.
Defined.

(** ** [Compensate] on its own *)

Lemma failures_none (evs : list event) :
  (forall j e, EvCompensate j (Some e) ∉ evs) -> failures evs = [].
Proof.
  induction evs as [|ev evs IH]; [done|]. intros Hnone.
  assert (failures evs = []) as Hrest.
  { apply IH. intros j e Hin. apply (Hnone j e). by apply elem_of_cons; right. }
  destruct ev as [| | |j [e|]]; simpl; try done.
  destruct (Hnone j e). apply elem_of_cons. by left.
Qed.

Section CompensateAlone.
Context {W S : Type} `{StateManager S}.
Implicit Types (s : saga W S) (w : W).

(** X15. [Compensate] leaves the saga as it found it: the steps, [currentStep]
    and the state manager, which it never calls.  Its only calls are
    compensating actions, of steps from 0 to [currentStep], and its loop ends
    within the bound. *)
Theorem Compensate_only_compensates s w :
  exists w' evs r,
    Compensate (s, w) = ((s, w'), evs, r)
    /\ r <> OutOfFuel
    /\ forall ev, ev ∈ evs ->
         exists j res, ev = EvCompensate j res /\ 0 <= j <= currentStep s.
Proof.
  destruct (Z.lt_ge_cases (currentStep s) (len (steps s))) as [Hcur|Hcur].
  - destruct (Compensate_run s w Hcur) as (w' & evs & Hrun & Hcalls).
    exists w', evs, (Returns (aggregated (failures evs))). do 2 (split; [done|]).
    intros ev Hev.
    destruct (compensations_only _ _ _ Hcalls Hev) as (j & res & -> & Hj).
    exists j, res. split; [done|]. by apply elem_of_countdown.
  - exists w, [], Panics. split.
    + apply Compensate_out_of_range; [unfold len in Hcur; lia | done].
    + split; [done|]. by intros ev []%elem_of_nil.
Qed.

(** X16. With [currentStep] below [len(steps)], [Compensate] returns, and it
    returns nil exactly when no compensating action returned an error. *)
Theorem Compensate_nil_iff_no_failure s w :
  currentStep s < len (steps s) ->
  exists w' evs err,
    Compensate (s, w) = ((s, w'), evs, Returns err)
    /\ (err = None <-> forall j res, EvCompensate j res ∈ evs -> res = None).
Proof.
  intros Hcur.
  destruct (Compensate_run s w Hcur) as (w' & evs & Hrun & _).
  exists w', evs, (aggregated (failures evs)). split; [done|]. split.
  - intros Hnil j [e|] Hin; [|done].
    apply failures_elem_of in Hin. by destruct (failures evs); [apply elem_of_nil in Hin|].
  - intros Hall. rewrite failures_none; [done|].
    intros j e Hin. by apply Hall in Hin.
Qed.

End CompensateAlone.

Lemma Compensate_nil_iff_no_failure_witness :
  exists w' evs,
    Compensate (with_currentStep 1 (AddStep step2 (AddStep step1 New)), 5)
      = ((with_currentStep 1 (AddStep step2 (AddStep step1 New)), w'), evs, Returns None).
Proof.
  pose proof (Compensate_nil_iff_no_failure
                (with_currentStep 1 (AddStep step2 (AddStep step1 New))) 5) as Hnil.
  destruct Hnil as (w' & evs & err & Hrun & Hiff); [vm_compute; reflexivity|].
  exists w', evs. rewrite Hrun.
  assert (Compensate (with_currentStep 1 (AddStep step2 (AddStep step1 New)), 5)
          = ((with_currentStep 1 (AddStep step2 (AddStep step1 New)), 0),
             [EvCompensate 1 None; EvCompensate 0 None], Returns None)) as Hrun'
    by (vm_compute; reflexivity).
  rewrite Hrun in Hrun'. by injection Hrun' as _ _ ->.
Defined.

(** ** The shape of a run of [Execute], with any state manager *)

Lemma clean_passes_events (i k : Z) (pre : list event) :
  clean_passes i k pre ->
  i <= k
  /\ forall ev, ev ∈ pre ->
       i <= event_index ev < k /\ event_error ev = None /\ is_compensate ev = false.
Proof.
  induction 1 as [i|i k evs _ [Hle IH]|i k evs _ [Hle IH]].
  - split; [lia|]. by intros ev []%elem_of_nil.
  - split; [lia|]. intros ev [->|Hev]%elem_of_cons; [simpl; split; [lia|done]|].
    destruct (IH _ Hev) as (? & ? & ?). split; [lia|done].
  - split; [lia|]. intros ev [Hev|Hev]%elem_of_app.
    + elem_of_cases Hev; subst; simpl; (split; [lia|done]).
    + destruct (IH _ Hev) as (? & ? & ?). split; [lia|done].
Qed.

Lemma forward_indices_app (evs1 evs2 : list event) :
  forward_indices (evs1 ++ evs2) = forward_indices evs1 ++ forward_indices evs2.
Proof. induction evs1 as [|[] evs1 IH]; simpl; by rewrite ?IH. Qed.

Lemma forward_indices_elem_of (evs : list event) (i : Z) :
  i ∈ forward_indices evs <-> exists res, EvForward i res ∈ evs.
Proof.
  induction evs as [|ev evs IH]; simpl.
  - split; [by intros []%elem_of_nil | by intros [res []%elem_of_nil]].
  - destruct ev as [j b e|j b e|j e|j e]; rewrite ?elem_of_cons, IH.
    all: split; [intros Hin|intros [res [Hin|Hin]%elem_of_cons]].
    all: try discriminate; try (destruct Hin as [res Hin]; exists res;
                                apply elem_of_cons; by right).
    all: try (by eexists).
    + destruct Hin as [->|[res Hin]]; [exists e; apply elem_of_cons; by left|].
      exists res. apply elem_of_cons. by right.
    + injection Hin as -> _. by left.
    + right. by exists res.
Qed.

Lemma clean_passes_forward_indices (i k : Z) (pre : list event) :
  clean_passes i k pre -> StronglySorted Z.lt (forward_indices pre).
Proof.
  induction 1 as [i|i k evs Hclean IH|i k evs Hclean IH]; simpl.
  - constructor.
  - done.
  - constructor; [done|]. apply Forall_forall. intros j Hj.
    apply forward_indices_elem_of in Hj as [res Hj].
    apply clean_passes_events in Hclean as [_ Hevs].
    destruct (Hevs _ Hj) as [Hidx _]. simpl in Hidx. lia.
Qed.

Lemma faulty_pass_forward_indices (k : Z) (nm : string) (tail : list event) (e : goerror) :
  faulty_pass k nm tail e -> forward_indices tail = [] \/ forward_indices tail = [k].
Proof.
  destruct 1 as [b e|e e'|comps e Hcalls|e']; simpl; auto.
  right. f_equal. destruct (forward_indices comps) as [|j l] eqn:Hfw; [done|].
  assert (j ∈ forward_indices comps) as Hj by (rewrite Hfw; apply elem_of_cons; by left).
  apply forward_indices_elem_of in Hj as [res Hj].
  by destruct (compensations_only _ _ _ Hcalls Hj) as (? & ? & ? & _).
Qed.

Section ExecuteShape.
Context {W S : Type} `{StateManager S}.
Implicit Types (s : saga W S) (w : W).

Lemma Execute_loop_shape fuel s w c' evs r :
  0 <= currentStep s <= len (steps s) ->
  Execute_loop fuel (s, w) = (c', evs, r) ->
  forall err, r = Returns err ->
    exists pre tail,
      evs = pre ++ tail
      /\ clean_passes (currentStep s) (currentStep c'.1) pre
      /\ match err with
         | None => tail = [] /\ currentStep c'.1 = len (steps s)
         | Some e =>
             exists step,
               index (steps s) (currentStep c'.1) = Some step
               /\ faulty_pass (currentStep c'.1) (Name step) tail e
         end.
Proof.
  intros Hcur Hrun. assert (0 <= currentStep s) as Hpos by lia.
  revert Hcur. revert fuel s w c' evs r Hpos Hrun.
  apply (Execute_loop_runs (fun c c' evs r =>
    0 <= currentStep c.1 <= len (steps c.1) ->
    forall err, r = Returns err ->
      exists pre tail,
        evs = pre ++ tail
        /\ clean_passes (currentStep c.1) (currentStep c'.1) pre
        /\ match err with
           | None => tail = [] /\ currentStep c'.1 = len (steps c.1)
           | Some e =>
               exists step,
                 index (steps c.1) (currentStep c'.1) = Some step
                 /\ faulty_pass (currentStep c'.1) (Name step) tail e
           end)); simpl.
  - intros s w Hend Hcur err [= <-]. exists [], []. split; [done|].
    split; [constructor|]. split; [done|lia].
  - done.
  - intros s w step c' evs err Hstep Hbody Hcur err' [= <-].
    exists [], evs. split; [done|].
    inversion Hbody; subst; simpl; (split; [constructor|]); exists step;
      (split; [done|]); by constructor.
  - intros s w step c1 ev1 c2 ev2 r Hstep Hbody IH Hcur err Hr.
    pose proof (index_Some_range _ _ _ Hstep) as Hrange.
    assert (steps c1.1 = steps s /\ currentStep c1.1 = currentStep s
            /\ (ev1 = [EvStepState (currentStep s) true None]
                \/ ev1 = completed_pass (currentStep s))) as (Hsteps & Hc1 & Hev1).
    { inversion Hbody; subst; simpl; auto. }
    rewrite Hsteps, Hc1 in IH.
    destruct (IH ltac:(lia) err Hr) as (pre & tail & -> & Hclean & Htail).
    exists (ev1 ++ pre), tail. split; [by rewrite app_assoc|]. split; [|done].
    destruct Hev1 as [-> | ->]; by constructor.
Qed.

Lemma Execute_shape s w :
  exists c' evs err pre tail,
    Execute (s, w) = (c', evs, Returns err)
    /\ evs = pre ++ tail
    /\ clean_passes 0 (currentStep c'.1) pre
    /\ match err with
       | None => tail = [] /\ currentStep c'.1 = len (steps s)
       | Some e =>
           exists step,
             index (steps s) (currentStep c'.1) = Some step
             /\ faulty_pass (currentStep c'.1) (Name step) tail e
       end.
Proof.
  destruct (Execute_returns s w) as (c' & evs & err & Hrun).
  exists c', evs, err. rewrite Hrun. rewrite Execute_unfold in Hrun.
  destruct (Execute_loop_shape _ (with_currentStep 0 s) _ _ _ _
              ltac:(simpl; unfold len; lia) Hrun err eq_refl)
    as (pre & tail & Hevs & Hclean & Htail).
  by exists pre, tail.
Qed.

(** X1. Every run of [Execute] has this shape, whatever the state manager and
    the steps do.  It returns.  Its calls are those of clean passes over the
    steps from 0 up to the final [currentStep]: a query that answers
    completed, or a query that answers not completed, a forward action that
    succeeds and the write of [true].  If the result is nil there is no
    other call and [currentStep] is [len(steps)].  If it is an error, one
    last pass follows, at the step [currentStep]: a query that fails; or a
    query, a forward action that fails and a write of [false] that either
    fails, or succeeds and is followed by the compensations from that step
    down to 0; or a query, a forward action that succeeds and a write of
    [true] that fails.  The error returned is the one this pass builds. *)
Theorem Execute_run_shape s w :
  exists c' evs err pre tail,
    Execute (s, w) = (c', evs, Returns err)
    /\ evs = pre ++ tail
    /\ clean_passes 0 (currentStep c'.1) pre
    /\ match err with
       | None => tail = [] /\ currentStep c'.1 = len (steps s)
       | Some e =>
           exists step,
             index (steps s) (currentStep c'.1) = Some step
             /\ faulty_pass (currentStep c'.1) (Name step) tail e
       end.
Proof.
  destruct (Execute_returns s w) as (c' & evs & err & Hrun).
  exists c', evs, err. rewrite Hrun. rewrite Execute_unfold in Hrun.
  destruct (Execute_loop_shape _ (with_currentStep 0 s) _ _ _ _
              ltac:(simpl; unfold len; lia) Hrun err eq_refl)
    as (pre & tail & Hevs & Hclean & Htail).
  by exists pre, tail.
Qed.

(** X2. [Execute] returns, without an index out of range and within the bound
    on its passes; it leaves the steps as they were and [currentStep] between
    0 and [len(steps)], at [len(steps)] exactly when it returns nil. *)
Theorem Execute_returns_in_bounds s w :
  exists c' evs err,
    Execute (s, w) = (c', evs, Returns err)
    /\ steps c'.1 = steps s
    /\ 0 <= currentStep c'.1 <= len (steps s)
    /\ (err = None <-> currentStep c'.1 = len (steps s)).
Proof.
  destruct (Execute_returns s w) as (c' & evs & err & Hrun).
  exists c', evs, err. rewrite Hrun. rewrite Execute_unfold in Hrun.
  destruct (Execute_loop_frame _ (with_currentStep 0 s) _ _ _ _
              ltac:(simpl; unfold len; lia) Hrun) as (Hsteps & Hle & Hnil & Herr).
  simpl in *. do 2 (split; [done|]). split; [lia|]. split.
  - intros ->. by apply Hnil.
  - intros Hend. destruct err as [e|]; [|done].
    specialize (Herr e eq_refl). lia.
Qed.

(** X3. A saga without steps: [Execute] returns nil at once, with no call, not
    even to the state manager. *)
Theorem Execute_no_steps s w :
  steps s = [] ->
  Execute (s, w) = ((with_currentStep 0 s, w), [], Returns None).
Proof.
  intros Hsteps. rewrite Execute_unfold, Hsteps.
  apply Execute_loop_exit. simpl. rewrite Hsteps. done.
Qed.

(** Where a failed forward action whose failure was recorded sits in a
    run: in its last pass, followed by the compensations. *)
Lemma shape_recorded_failure (pre tail : list event) (k k' : Z) (nm : string)
    (err e : goerror) :
  clean_passes 0 k pre ->
  faulty_pass k nm tail err ->
  EvForward k' (Some e) ∈ pre ++ tail ->
  EvSetStepState k' false None ∈ pre ++ tail ->
  k' = k
  /\ exists comps,
       tail = [EvStepState k false None; EvForward k (Some e);
               EvSetStepState k false None] ++ comps
       /\ call_of <$> comps = CallCompensate <$> countdown k
       /\ failures (pre ++ tail) = failures comps
       /\ err = match aggregated (failures comps) with
                | Some errComp =>
                    errors_Wrapf errComp
                      ("compensating after failure in step " +:+ nm +:+ ": " +:+ Error e)
                | None => errors_Wrapf e ("executing step " +:+ nm)
                end.
Proof.
  intros Hclean Htail Hfwd Hset.
  apply clean_passes_events in Hclean as [_ Hpre].
  assert (failures pre = []) as Hquiet.
  { apply failures_none. intros j e0 Hin. by destruct (Hpre _ Hin) as (_ & ? & _). }
  apply elem_of_app in Hfwd as [Hfwd|Hfwd];
    [by destruct (Hpre _ Hfwd) as (_ & ? & _)|].
  destruct Htail as [b e0|e0 e'|comps e0 Hcalls|e'].
  - elem_of_cases Hfwd.
  - elem_of_cases Hfwd. injection Hfwd as -> ->.
    apply elem_of_app in Hset as [Hset|Hset].
    + destruct (Hpre _ Hset) as (Hidx & _). simpl in Hidx. lia.
    + elem_of_cases Hset.
  - apply elem_of_app in Hfwd as [Hfwd|Hfwd].
    + elem_of_cases Hfwd. injection Hfwd as -> ->. split; [done|].
      exists comps. do 2 (split; [done|]). split; [|done].
      by rewrite failures_app, Hquiet.
    + by destruct (compensations_only _ _ _ Hcalls Hfwd) as (? & ? & ? & _).
  - elem_of_cases Hfwd.
Qed.

(** X4. In a run of [Execute], with any state manager, the forward actions are
    called in the order of the steps and each at most once: the indices of
    the forward calls increase strictly, within [0 .. len(steps) - 1]. *)
Theorem Execute_forwards_once_in_order s w :
  exists c' evs err,
    Execute (s, w) = (c', evs, Returns err)
    /\ StronglySorted Z.lt (forward_indices evs)
    /\ forall i, i ∈ forward_indices evs -> 0 <= i < len (steps s).
Proof.
  destruct (Execute_shape s w) as (c' & evs & err & pre & tail & Hrun & -> & Hclean & Htail).
  exists c', (pre ++ tail), err. split; [done|].
  pose proof (clean_passes_forward_indices _ _ _ Hclean) as Hsorted.
  pose proof (clean_passes_events _ _ _ Hclean) as [Hk Hpre].
  assert (forall i, i ∈ forward_indices pre -> 0 <= i < currentStep c'.1) as Hbelow.
  { intros i [res Hi]%forward_indices_elem_of.
    by destruct (Hpre _ Hi) as (Hidx & _). }
  rewrite forward_indices_app.
  destruct err as [e|].
  - destruct Htail as (step & Hstep%index_Some_range & Hfaulty).
    apply faulty_pass_forward_indices in Hfaulty as [-> | ->].
    + rewrite app_nil_r. split; [done|]. intros i Hi%Hbelow. lia.
    + split.
      * apply StronglySorted_app_2; [|done|repeat constructor].
        intros i j Hi%Hbelow ->%list_elem_of_singleton. lia.
      * intros i [Hi%Hbelow| ->%list_elem_of_singleton]%elem_of_app; lia.
  - destruct Htail as [-> Hend]. simpl. rewrite app_nil_r. split; [done|].
    intros i Hi%Hbelow. lia.
Qed.

(** X5. In a run of [Execute], with any state manager, compensation happens
    exactly when a forward action failed and the write that records the
    failure succeeded: the compensating actions called are then those of the
    steps from 0 to the failing one, and otherwise none is called. *)
Theorem Execute_compensates_iff_failure_recorded s w :
  exists c' evs err,
    Execute (s, w) = (c', evs, Returns err)
    /\ forall j,
         (exists res, EvCompensate j res ∈ evs)
         <-> exists k e,
               EvForward k (Some e) ∈ evs
               /\ EvSetStepState k false None ∈ evs
               /\ 0 <= j <= k.
Proof.
  destruct (Execute_shape s w) as (c' & evs & err & pre & tail & Hrun & -> & Hclean & Htail).
  exists c', (pre ++ tail), err. split; [done|].
  pose proof (clean_passes_events _ _ _ Hclean) as [_ Hpre].
  intros j. split.
  - intros [res [Hin|Hin]%elem_of_app];
      [by destruct (Hpre _ Hin) as (_ & _ & ?)|].
    destruct err as [err|]; [|destruct Htail as [-> _]; by apply elem_of_nil in Hin].
    destruct Htail as (step & _ & Hfaulty).
    destruct Hfaulty as [b e0|e0 e'|comps e0 Hcalls|e']; elem_of_cases Hin.
    destruct (compensations_only _ _ _ Hcalls Hin) as (j' & res' & [= -> ->] & Hj).
    exists (currentStep c'.1), e0. split; [|split].
    + apply elem_of_app. right. apply elem_of_cons. right. apply elem_of_cons. by left.
    + apply elem_of_app. right. do 2 (apply elem_of_cons; right).
      apply elem_of_cons. by left.
    + by apply elem_of_countdown.
  - intros (k & e & Hfwd & Hset & Hj).
    destruct err as [err|].
    + destruct Htail as (step & _ & Hfaulty).
      destruct (shape_recorded_failure _ _ _ _ _ _ _ Hclean Hfaulty Hfwd Hset)
        as (-> & comps & -> & Hcalls & _).
      apply elem_of_countdown in Hj.
      apply (list_elem_of_fmap_2 CallCompensate) in Hj. rewrite <- Hcalls in Hj.
      apply list_elem_of_fmap in Hj as (ev & Hcall & Hev).
      destruct ev as [| | |j' res]; simplify_eq/=. exists res.
      apply elem_of_app. right. do 3 (apply elem_of_cons; right). done.
    + destruct Htail as [-> _]. rewrite app_nil_r in Hfwd.
      by destruct (Hpre _ Hfwd) as (_ & ? & _).
Qed.

(** X6. [Execute] returns nil exactly when no call of the run returned an
    error, whatever the state manager: no query, no write, no action. *)
Theorem Execute_nil_iff_no_call_failed s w :
  exists c' evs err,
    Execute (s, w) = (c', evs, Returns err)
    /\ (err = None <-> forall ev, ev ∈ evs -> event_error ev = None).
Proof.
  destruct (Execute_shape s w) as (c' & evs & err & pre & tail & Hrun & -> & Hclean & Htail).
  exists c', (pre ++ tail), err. split; [done|].
  pose proof (clean_passes_events _ _ _ Hclean) as [_ Hpre].
  split.
  - intros ->. destruct Htail as [-> _]. rewrite app_nil_r.
    intros ev Hev. by destruct (Hpre _ Hev) as (_ & ? & _).
  - intros Hall. destruct err as [err|]; [exfalso|done].
    destruct Htail as (step & _ & Hfaulty).
    assert (exists ev e, ev ∈ tail /\ event_error ev = Some e) as (ev & e & Hev & Herr).
    { destruct Hfaulty as [b e0|e0 e'|comps e0 Hcalls|e'].
      - eexists _, e0. split; [apply elem_of_cons; by left|done].
      - eexists _, e0. split; [apply elem_of_cons; right; apply elem_of_cons; by left|done].
      - exists (EvForward (currentStep c'.1) (Some e0)), e0. split; [|done].
        apply elem_of_app. left. apply elem_of_cons; right. apply elem_of_cons. by left.
      - exists (EvSetStepState (currentStep c'.1) true (Some e')), e'. split; [|done].
        do 2 (apply elem_of_cons; right). apply elem_of_cons. by left. }
    rewrite Hall in Herr; [done|]. apply elem_of_app. by right.
Qed.

(** X7. The error of a run in which a forward action failed and the failure
    was recorded, with any state manager.  When no compensating action
    failed, it is the error of the forward action in the message "executing
    step" with the name of the step.  Otherwise it is the aggregate of the
    errors of the compensating actions that failed, in the order of the
    calls, in a message that names the step and quotes the error of the
    forward action. *)
Theorem Execute_failure_error s w :
  exists c' evs err,
    Execute (s, w) = (c', evs, Returns err)
    /\ forall k e,
         EvForward k (Some e) ∈ evs ->
         EvSetStepState k false None ∈ evs ->
         exists step,
           index (steps s) k = Some step
           /\ err = Some
                match aggregated (failures evs) with
                | Some errComp =>
                    errors_Wrapf errComp
                      ("compensating after failure in step " +:+ Name step
                         +:+ ": " +:+ Error e)
                | None => errors_Wrapf e ("executing step " +:+ Name step)
                end.
Proof.
  destruct (Execute_shape s w) as (c' & evs & err & pre & tail & Hrun & -> & Hclean & Htail).
  exists c', (pre ++ tail), err. split; [done|].
  intros k e Hfwd Hset.
  destruct err as [err|].
  - destruct Htail as (step & Hstep & Hfaulty).
    destruct (shape_recorded_failure _ _ _ _ _ _ _ Hclean Hfaulty Hfwd Hset)
      as (-> & comps & _ & _ & Hfail & ->).
    exists step. split; [done|]. by rewrite Hfail.
  - destruct Htail as [-> _]. rewrite app_nil_r in Hfwd.
    apply clean_passes_events in Hclean as [_ Hpre].
    by destruct (Hpre _ Hfwd) as (_ & ? & _).
Qed.

(** X8. What [errors.Cause] finds in the error [Execute] returns, with any
    state manager.  When no compensating action failed, the cause is that
    of the error of a call of the run: the query, the write or the forward
    action that failed.  When a compensating action failed, the cause is the
    aggregate of the compensation errors: the error of the forward action is
    then only quoted in the message. *)
Theorem Execute_error_cause s w :
  exists c' evs err,
    Execute (s, w) = (c', evs, Returns err)
    /\ forall e, err = Some e ->
         match aggregated (failures evs) with
         | None =>
             exists ev e0,
               ev ∈ evs /\ is_compensate ev = false
               /\ event_error ev = Some e0 /\ Cause e = Cause e0
         | Some agg => Cause e = agg
         end.
Proof.
  destruct (Execute_shape s w) as (c' & evs & err & pre & tail & Hrun & -> & Hclean & Htail).
  exists c', (pre ++ tail), err. split; [done|].
  intros e ->. destruct Htail as (step & _ & Hfaulty).
  apply clean_passes_events in Hclean as [_ Hpre].
  assert (failures pre = []) as Hquiet.
  { apply failures_none. intros j e0 Hin. by destruct (Hpre _ Hin) as (_ & ? & _). }
  rewrite failures_app, Hquiet. simpl.
  destruct Hfaulty as [b e0|e0 e'|comps e0 Hcalls|e']; simpl.
  - exists (EvStepState (currentStep c'.1) b (Some e0)), e0.
    split; [|done]. apply elem_of_app. right. apply elem_of_cons. by left.
  - exists (EvSetStepState (currentStep c'.1) false (Some e')), e'.
    split; [|done]. apply elem_of_app. right.
    do 2 (apply elem_of_cons; right). apply elem_of_cons. by left.
  - destruct (failures comps) as [|ec errs]; simpl; [|done].
    exists (EvForward (currentStep c'.1) (Some e0)), e0.
    split; [|done]. apply elem_of_app. right.
    apply elem_of_cons; right. apply elem_of_cons. by left.
  - exists (EvSetStepState (currentStep c'.1) true (Some e')), e'.
    split; [|done]. apply elem_of_app. right.
    do 2 (apply elem_of_cons; right). apply elem_of_cons. by left.
Qed.

End ExecuteShape.

Lemma Execute_no_steps_witness :
  Execute (WithStateManager mock_query_fails (New (W:=Z)), 7)
    = ((with_currentStep 0 (WithStateManager mock_query_fails New), 7), [], Returns None).
Proof. by apply Execute_no_steps. Defined.

(** ** Runs with a store that keeps its records: what is skipped, what is resumed *)

Section ExecuteResume.
Context {W S : Type} `{ReliableStore S}.
Implicit Types (s : saga W S) (w : W).

(** X9. Completion goes by index.  Whatever saga is run on a store whose records
    say [true] for the indices below [k], [Execute] returns without calling
    the forward action of any step below [k]. *)
Theorem Execute_skips_recorded s w k :
  (forall j, 0 <= j < k -> records (stateManager s) !! j = Some true) ->
  exists c' evs err,
    Execute (s, w) = (c', evs, Returns err)
    /\ forall i res, i < k -> EvForward i res ∉ evs.
Proof.
  intros Hrec. destruct (Execute_returns s w) as (c' & evs & err & Hrun).
  exists c', evs, err. split; [done|]. rewrite Execute_unfold in Hrun.
  by eapply (Execute_loop_skips _ (with_currentStep 0 s)).
Qed.

(** When every step from the current one on is recorded [true], the loop
    only queries: one query for each of them, each answered [true]; it
    changes neither the world nor the records and returns nil. *)
Lemma Execute_loop_only_queries fuel s w c' evs r :
  0 <= currentStep s ->
  Execute_loop fuel (s, w) = (c', evs, r) ->
  r <> OutOfFuel ->
  (forall j, currentStep s <= j < len (steps s) ->
             records (stateManager s) !! j = Some true) ->
  c'.2 = w
  /\ r = Returns None
  /\ evs = (fun j => EvStepState j true None)
             <$> seqZ (currentStep s) (len (steps s) - currentStep s)
  /\ records (stateManager c'.1) = records (stateManager s).
Proof.
  intros Hpos Hrun. revert fuel s w c' evs r Hpos Hrun.
  apply (Execute_loop_runs (fun c c' evs r =>
    r <> OutOfFuel ->
    (forall j, currentStep c.1 <= j < len (steps c.1) ->
               records (stateManager c.1) !! j = Some true) ->
    c'.2 = c.2
    /\ r = Returns None
    /\ evs = (fun j => EvStepState j true None)
               <$> seqZ (currentStep c.1) (len (steps c.1) - currentStep c.1)
    /\ records (stateManager c'.1) = records (stateManager c.1))); simpl.
  - intros s w Hend _ _. do 2 (split; [done|]). split; [|done].
    rewrite seqZ_nil; [done|lia].
  - done.
  - intros s w step c' evs err Hstep Hbody _ Hrec. exfalso.
    apply index_Some_range in Hstep.
    pose proof (StepState_succeeds (stateManager s) (currentStep s)) as Hok.
    specialize (Hrec (currentStep s) ltac:(lia)).
    inversion Hbody; subst.
    all: try match goal with
             | Hq : StepState _ _ = (_, (_, Some _)) |- _ => by rewrite Hq in Hok
             end.
    all: store_facts; by rewrite Hrec in Hreport.
  - intros s w step c1 ev1 c2 ev2 r Hstep Hbody IH Hfuel Hrec.
    apply index_Some_range in Hstep.
    pose proof (Hrec (currentStep s) ltac:(lia)) as Hcur.
    inversion Hbody; subst; simpl in *; store_facts.
    + destruct IH as (Hw & Hr & -> & Hrecords); [done| |].
      { intros j Hj. rewrite_records. apply Hrec. lia. }
      do 2 (split; [done|]). split; [|by rewrite Hrecords].
      rewrite (seqZ_cons (currentStep s)) by lia. rewrite fmap_cons.
      replace (Z.succ (currentStep s)) with (currentStep s + 1) by lia.
      replace (Z.pred (len (steps s) - currentStep s))
        with (len (steps s) - (currentStep s + 1)) by lia.
      done.
    + by rewrite Hcur in Hreport.
Qed.

(** X10. A saga all of whose steps are recorded [true]: [Execute] asks the
    store once for each step and does nothing else; the world is as it was
    and the result is nil. *)
Theorem Execute_completed_saga_only_queries s w :
  (forall j, 0 <= j < len (steps s) -> records (stateManager s) !! j = Some true) ->
  exists s',
    Execute (s, w)
      = ((s', w), (fun j => EvStepState j true None) <$> seqZ 0 (len (steps s)),
         Returns None).
Proof.
  intros Hrec. destruct (Execute_returns s w) as ([s' w'] & evs & err & Hrun).
  exists s'. rewrite Hrun. rewrite Execute_unfold in Hrun.
  destruct (Execute_loop_only_queries _ (with_currentStep 0 s) _ _ _ _
              (Z.le_refl 0) Hrun ltac:(done) Hrec) as (Hw & [= ->] & -> & _).
  simpl in *. subst w'. by rewrite Z.sub_0_r.
Qed.

(** X11. [Execute] again after [Execute] returned nil, from any world: the
    second run calls no action, leaves the world alone and returns nil. *)
Theorem Execute_again_after_success s w c1 evs1 w2 :
  Execute (s, w) = (c1, evs1, Returns None) ->
  exists s2,
    Execute (c1.1, w2)
      = ((s2, w2), (fun j => EvStepState j true None) <$> seqZ 0 (len (steps s)),
         Returns None).
Proof.
  intros Hrun1. rewrite Execute_unfold in Hrun1.
  destruct (Execute_loop_frame _ (with_currentStep 0 s) _ _ _ _
              ltac:(simpl; unfold len; lia) Hrun1) as (Hsteps & _ & Hend & _).
  pose proof (Execute_loop_recorded _ (with_currentStep 0 s) _ _ _ _
                (Z.le_refl 0) Hrun1 ltac:(simpl; intros; lia)) as Hrec.
  simpl in *. rewrite Hend in Hrec by done.
  destruct (Execute_returns c1.1 w2) as ([s2 w2'] & evs2 & err2 & Hrun2).
  exists s2. rewrite Hrun2. rewrite Execute_unfold in Hrun2.
  destruct (Execute_loop_only_queries _ (with_currentStep 0 c1.1) _ _ _ _
              (Z.le_refl 0) Hrun2 ltac:(done))
    as (Hw & [= ->] & -> & _).
  { simpl. rewrite Hsteps. done. }
  simpl in *. subst w2'. by rewrite Hsteps, Z.sub_0_r.
Qed.



End ExecuteResume.

(** ** The world a run leaves *)

Section CompensateWorld.
Context {W S : Type} `{StateManager S}.
Implicit Types (s : saga W S) (w : W).

Lemma Compensate_loop_world fuel i errs s w :
  i < len (steps s) -> (Z.to_nat (i + 1) <= fuel)%nat ->
  (Compensate_loop fuel i errs (s, w)).1.1.2
    = compensations (reverse (take (Z.to_nat (i + 1)) (steps s))) w.
Proof.
  revert i errs w. induction fuel as [|fuel IH]; intros i errs w Hi Hfuel.
  - rewrite Compensate_loop_exit by lia.
    by replace (Z.to_nat (i + 1)) with 0%nat by lia.
  - destruct (Z.lt_ge_cases i 0) as [Hneg|Hpos].
    + rewrite Compensate_loop_exit by lia.
      by replace (Z.to_nat (i + 1)) with 0%nat by lia.
    + destruct (index_is_Some (steps s) i) as [step Hstep]; [lia|].
      rewrite (Compensate_loop_pass _ _ _ _ _ step) by done.
      assert (steps s !! Z.to_nat i = Some step) as Hlookup.
      { unfold index in Hstep. by destruct (Z.leb_spec 0 i); [|lia]. }
      replace (Z.to_nat (i + 1)) with (Datatypes.S (Z.to_nat i)) by lia.
      rewrite (take_S_r _ _ _ Hlookup), reverse_snoc. simpl.
      destruct (ExecuteCompensate step w) as [w' err] eqn:Hcomp. simpl.
      specialize (IH (i - 1) match err with Some e => errs ++ [e] | None => errs end
                     w' ltac:(lia) ltac:(lia)).
      replace (Z.to_nat (i - 1 + 1)) with (Z.to_nat i) in IH by lia.
      by destruct (Compensate_loop fuel (i - 1) _ (s, w')) as [[c evs] r].
Qed.

Lemma Compensate_leaves_world s w :
  currentStep s < len (steps s) ->
  (Compensate (s, w)).1.1.2
    = compensations (reverse (take (Z.to_nat (currentStep s + 1)) (steps s))) w.
Proof.
  intros Hcur.
  pose proof (Compensate_loop_world (Z.to_nat (currentStep s + 1)) (currentStep s)
                [] s w Hcur ltac:(lia)) as Hworld.
  rewrite Compensate_unfold.
  by destruct (Compensate_loop _ _ _ _) as [[c evs'] [errs| |]].
Qed.

(** X17. [Compensate] undoes from the current step down: the world it leaves is
    the one that the compensating actions of the steps [currentStep], ...,
    0, called in that order, make of the world it found. *)
Theorem Compensate_world s w :
  currentStep s < len (steps s) ->
  exists evs err,
    Compensate (s, w)
      = ((s, compensations (reverse (take (Z.to_nat (currentStep s + 1)) (steps s))) w),
         evs, Returns err).
Proof.
  intros Hcur. destruct (Compensate_run s w Hcur) as (w' & evs & Hrun & _).
  exists evs, (aggregated (failures evs)). rewrite Hrun. do 3 f_equal.
  pose proof (Compensate_loop_world (Z.to_nat (currentStep s + 1)) (currentStep s)
                [] s w Hcur ltac:(lia)) as Hworld.
  rewrite Compensate_unfold in Hrun.
  destruct (Compensate_loop _ _ _ _) as [[c evs'] [errs| |]]; simpl in *;
    by simplify_eq.
Qed.

End CompensateWorld.

Section ExecuteWorld.
Context {W S : Type} `{ReliableStore S}.
Implicit Types (s : saga W S) (w : W).

Lemma Execute_loop_world fuel s w c' evs r :
  0 <= currentStep s ->
  Execute_loop fuel (s, w) = (c', evs, r) ->
  r <> OutOfFuel ->
  (forall j, currentStep s <= j -> records (stateManager s) !! j <> Some true) ->
  match first_to_fail (drop (Z.to_nat (currentStep s)) (steps s)) (currentStep s) w with
  | Some (k, _) =>
      (exists err, r = Returns (Some err))
      /\ c'.2 = compensations (reverse (take (Z.to_nat (k + 1)) (steps s)))
                  (forwards (drop (Z.to_nat (currentStep s)) (steps s)) w)
  | None =>
      r = Returns None
      /\ c'.2 = forwards (drop (Z.to_nat (currentStep s)) (steps s)) w
  end.
Proof.
  intros Hpos Hrun. revert fuel s w c' evs r Hpos Hrun.
  apply (Execute_loop_runs (fun c c' evs r =>
    r <> OutOfFuel ->
    (forall j, currentStep c.1 <= j -> records (stateManager c.1) !! j <> Some true) ->
    match first_to_fail (drop (Z.to_nat (currentStep c.1)) (steps c.1))
            (currentStep c.1) c.2 with
    | Some (k, _) =>
        (exists err, r = Returns (Some err))
        /\ c'.2 = compensations (reverse (take (Z.to_nat (k + 1)) (steps c.1)))
                    (forwards (drop (Z.to_nat (currentStep c.1)) (steps c.1)) c.2)
    | None =>
        r = Returns None
        /\ c'.2 = forwards (drop (Z.to_nat (currentStep c.1)) (steps c.1)) c.2
    end)); simpl.
  - intros s w Hend _ _. rewrite drop_ge; [done|]. unfold len in Hend. lia.
  - done.
  - intros s w step c' evs err Hstep Hbody _ Hrec.
    pose proof (StepState_succeeds (stateManager s) (currentStep s)) as Hok.
    rewrite (index_drop _ _ _ Hstep). simpl.
    inversion Hbody; subst.
    all: try match goal with
             | Hq : StepState _ _ = (_, (_, Some _)) |- _ => by rewrite Hq in Hok
             end.
    all: try (store_facts; discriminate).
    match goal with Hf : ExecuteForward _ _ = _ |- _ => rewrite Hf end.
    split; [by eexists|]. simpl.
    match goal with
    | Hc : Compensate (?s2, ?w1) = _ |- _ =>
        pose proof (Compensate_leaves_world s2 w1) as Hworld;
          rewrite Hc in Hworld; simpl in Hworld; apply Hworld;
          apply index_Some_range in Hstep; lia
    end.
  - intros s w step c1 ev1 c2 ev2 r Hstep Hbody IH Hfuel Hrec.
    rewrite (index_drop _ _ _ Hstep). simpl.
    inversion Hbody; subst; simpl in *.
    + store_facts. exfalso. apply (Hrec (currentStep s)); [lia|].
      by destruct (records (stateManager s) !! currentStep s) as [[]|].
    + match goal with Hf : ExecuteForward _ _ = _ |- _ => rewrite Hf end.
      apply IH; [done|].
      intros j Hj. store_facts. rewrite_records. rewrite lookup_insert_ne by lia.
      apply Hrec. lia.
Qed.

(** X13. Rollback.  On a store without records and whose operations succeed,
    when the forward actions fail first at step [k], [Execute] returns an
    error and leaves the world that the compensating actions of the steps
    [k, k-1, ..., 0], called in that order, make of the world left by the
    forward actions of the steps [0, ..., k]. *)
Theorem Execute_world_after_failure s w k e :
  records (stateManager s) = ∅ ->
  first_to_fail (steps s) 0 w = Some (k, e) ->
  exists s' evs err,
    Execute (s, w)
      = ((s', compensations (reverse (take (Z.to_nat (k + 1)) (steps s)))
                (forwards (steps s) w)),
         evs, Returns (Some err)).
Proof.
  intros Hfresh Hfirst.
  destruct (Execute_returns s w) as ([s' w'] & evs & err & Hrun).
  exists s', evs. rewrite Hrun. rewrite Execute_unfold in Hrun.
  pose proof (Execute_loop_world _ (with_currentStep 0 s) _ _ _ _
                (Z.le_refl 0) Hrun ltac:(done)) as Hworld.
  simpl in Hworld. change (Z.to_nat 0) with 0%nat in Hworld.
  rewrite drop_0, Hfirst in Hworld.
  destruct Hworld as [[err' [= ->]] ->].
  - intros j _. by rewrite Hfresh, lookup_empty.
  - by exists err'.
Qed.

(** X14. On a store without records and whose operations succeed, when no
    forward action fails, [Execute] returns nil and leaves the world the
    forward actions of all the steps, called in order, make of the one it
    found. *)
Theorem Execute_world_after_success s w :
  records (stateManager s) = ∅ ->
  first_to_fail (steps s) 0 w = None ->
  exists s' evs,
    Execute (s, w) = ((s', forwards (steps s) w), evs, Returns None).
Proof.
  intros Hfresh Hfirst.
  destruct (Execute_returns s w) as ([s' w'] & evs & err & Hrun).
  exists s', evs. rewrite Hrun. rewrite Execute_unfold in Hrun.
  pose proof (Execute_loop_world _ (with_currentStep 0 s) _ _ _ _
                (Z.le_refl 0) Hrun ltac:(done)) as Hworld.
  simpl in Hworld. change (Z.to_nat 0) with 0%nat in Hworld.
  rewrite drop_0, Hfirst in Hworld.
  destruct Hworld as [[= ->] ->]; [|done].
  intros j _. by rewrite Hfresh, lookup_empty.
Qed.

End ExecuteWorld.

(** ** The further properties at the sagas of saga_test.go *)

Lemma Execute_failure_error_witness :
  exists c' evs step,
    Execute (AddStep step2_failing (AddStep step1 New), 0)
      = (c', evs,
         Returns (Some (errors_Wrapf (errors_New "step2 error")
                          ("executing step " +:+ Name step))))
    /\ index [step1; step2_failing] 1 = Some step.
Proof.
  destruct (Execute_failure_error (AddStep step2_failing (AddStep step1 New)) 0)
    as (c' & evs & err & Hrun & Herr).
  assert (Execute (AddStep step2_failing (AddStep step1 New), 0)
          = (c', [EvStepState 0 false None; EvForward 0 None;
                  EvSetStepState 0 true None; EvStepState 1 false None;
                  EvForward 1 (Some (errors_New "step2 error"));
                  EvSetStepState 1 false None;
                  EvCompensate 1 None; EvCompensate 0 None], Returns err)) as Hevs.
  { rewrite Hrun. f_equal. f_equal.
    assert ((Execute (AddStep step2_failing (AddStep step1 New), 0)).1.2 = evs) as <-
      by by rewrite Hrun.
    vm_compute. reflexivity. }
  rewrite Hrun in Hevs. injection Hevs as ->.
  destruct (Herr 1 (errors_New "step2 error")) as (step & Hstep & ->).
  - do 4 (apply elem_of_cons; right). apply elem_of_cons. by left.
  - do 5 (apply elem_of_cons; right). apply elem_of_cons. by left.
  - eexists c', _, step. split; [exact Hrun | exact Hstep].
Defined.

Lemma Execute_skips_recorded_witness :
  exists c' evs err,
    Execute (AddStep step2 (AddStep step1
               (WithStateManager {| state := <[0 := true]> ∅ |} New)), 9)
      = (c', evs, Returns err)
    /\ forall i res, i < 1 -> EvForward i res ∉ evs.
Proof.
  apply (Execute_skips_recorded
           (AddStep step2 (AddStep step1
              (WithStateManager {| state := <[0 := true]> ∅ |} New))) 9 1).
  intros j Hj. replace j with 0 by lia. reflexivity.
Defined.

Lemma Execute_completed_saga_only_queries_witness :
  exists s',
    Execute (AddStep step2 (AddStep step1 (WithStateManager two_completed New)), 9)
      = ((s', 9), [EvStepState 0 true None; EvStepState 1 true None], Returns None).
Proof.
  apply (Execute_completed_saga_only_queries
           (AddStep step2 (AddStep step1 (WithStateManager two_completed New))) 9).
  intros j Hj. change (len _) with 2 in Hj.
  destruct (decide (j = 0)) as [->|]; [reflexivity|].
  replace j with 1 by lia. reflexivity.
Defined.

Lemma Execute_again_after_success_witness :
  exists c1 evs1 s2,
    Execute (AddStep step2 (AddStep step1 New), 0) = (c1, evs1, Returns None)
    /\ Execute (c1.1, 5)
        = ((s2, 5), [EvStepState 0 true None; EvStepState 1 true None], Returns None).
Proof.
  eexists _, _. 
  assert (Execute (AddStep step2 (AddStep step1 New), 0)
          = (_, _, Returns None)) as Hrun by (vm_compute; reflexivity).
  destruct (Execute_again_after_success _ _ _ _ 5 Hrun) as (s2 & Hagain).
  exists s2. split; [exact Hrun | exact Hagain].
Defined.


Lemma Compensate_world_witness :
  exists evs err,
    Compensate (with_currentStep 1 (AddStep step2 (AddStep step1 New)), 2)
      = ((with_currentStep 1 (AddStep step2 (AddStep step1 New)), 0), evs, Returns err).
Proof.
  apply (Compensate_world (with_currentStep 1 (AddStep step2 (AddStep step1 New))) 2).
  vm_compute. reflexivity.
Defined.

Lemma Execute_world_after_failure_witness :
  exists s' evs err,
    Execute (AddStep step2_failing (AddStep step1 New), 0)
      = ((s', 0), evs, Returns (Some err)).
Proof.
  pose proof (Execute_world_after_failure
                (AddStep step2_failing (AddStep step1 New)) 0 1
                (errors_New "step2 error")) as Hworld.
  apply Hworld; reflexivity.
Defined.

Lemma Execute_world_after_success_witness :
  exists s' evs,
    Execute (AddStep step2 (AddStep step1 New), 0) = ((s', 2), evs, Returns None).
Proof.
  pose proof (Execute_world_after_success (AddStep step2 (AddStep step1 New)) 0)
    as Hworld.
  apply Hworld; reflexivity.
Defined.
